(** * scraple.py: neighbour feed to Notion, a shallow embedding

    The script fetches the pages of a blog feed, turns every anchor that
    points at the blog host into a post, drops the duplicates of one page,
    asks the Notion database whether the post is already stored and
    creates a page for each post that is not.

    Python values are modelled as follows.
    - [str] is a sequence of Unicode code points ([list N]), so that
      [len] and the slice [title[:200]] count what Python counts.
    - An exception is a value of [exn]; a call that may raise returns an
      [Outcome].
    - A [dict] is an association list in insertion order: assigning to a
      key that is present replaces the value where the key stands.
    - The network and the clock are an explicit world that every call
      threads through; [print], [time.sleep] and the requests sent are
      recorded in an event list.
    - The script is given twice: on pages already parsed into their
      anchors ([parse_posts], [main]), and on the text of the pages with
      the HTML parser as a function that may raise ([parse_posts_text],
      [main_text]). The two agree on pages the parser accepts. *)

From Stdlib Require Import String Ascii.
From Stdlib Require Import List ZArith NArith Bool Lia.
Import ListNotations.

Set Implicit Arguments.

(** ** Exceptions and outcomes *)

Inductive exn : Type :=
| ValueError
| IndexError
| JSONDecodeError
| HTTPError (status : Z)
| Timeout
| ConnectionError
| ParserRejectedMarkup.

Inductive Outcome (A : Type) : Type :=
| Ok (a : A)
| Raise (e : exn).

Arguments Ok {A} a.
Arguments Raise {A} e.

Definition obind {A B : Type} (m : Outcome A) (k : A -> Outcome B) : Outcome B :=
  match m with
  | Ok a => k a
  | Raise e => Raise e
  end.

Declare Scope outcome_scope.
Delimit Scope outcome_scope with outcome.
Notation "x <- m ;; k" := (obind m (fun x => k))
  (at level 61, m at next level, right associativity) : outcome_scope.

(** ** Python strings *)

Module PyStr.

Definition char := N.
Definition str := list char.

(** A string literal of the source. *)
Definition lit (s : string) : str :=
  map N_of_ascii (list_ascii_of_string s).

Fixpoint eqb (a b : str) : bool :=
  match a, b with
  | [], [] => true
  | x :: a', y :: b' => N.eqb x y && eqb a' b'
  | _, _ => false
  end.

(** [s.startswith(p)] *)
Fixpoint startswith (p s : str) : bool :=
  match p, s with
  | [], _ => true
  | _ :: _, [] => false
  | x :: p', y :: s' => N.eqb x y && startswith p' s'
  end.

(** [sub in s] *)
Fixpoint contains (sub s : str) : bool :=
  startswith sub s ||
  match s with
  | [] => false
  | _ :: s' => contains sub s'
  end.

(** [s.partition(sep)] when [sep] occurs: the text before the first
    occurrence and the text after it. *)
Fixpoint find_sep (sep s : str) : option (str * str) :=
  if startswith sep s then Some ([], skipn (length sep) s)
  else match s with
       | [] => None
       | c :: s' =>
           match find_sep sep s' with
           | Some (before, after) => Some (c :: before, after)
           | None => None
           end
       end.

Fixpoint split_fuel (fuel : nat) (sep s : str) : list str :=
  match fuel with
  | O => [s]
  | S fuel' =>
      match find_sep sep s with
      | None => [s]
      | Some (before, after) => before :: split_fuel fuel' sep after
      end
  end.

(** [s.split(sep)]: an empty separator raises [ValueError]; every cut
    removes at least one code point, so [length s] cuts are enough. *)
Definition split (sep s : str) : Outcome (list str) :=
  match sep with
  | [] => Raise ValueError
  | _ :: _ => Ok (split_fuel (length s) sep s)
  end.

(** [l[i]] for a non-negative literal index. *)
Definition getitem {A : Type} (l : list A) (i : nat) : Outcome A :=
  match nth_error l i with
  | Some x => Ok x
  | None => Raise IndexError
  end.

(** [s[:n]] *)
Definition slice_to (n : nat) (s : str) : str := firstn n s.

(** [not s] *)
Definition is_empty (s : str) : bool :=
  match s with
  | [] => true
  | _ :: _ => false
  end.

End PyStr.

Import PyStr.

(** ** parse_posts *)

(** An [a] element with an [href] attribute, as the loop of [parse_posts]
    reads it: [a["href"]] and [a.get_text(strip=True)]. *)
Record Tag : Type := mkTag {
  href : str;
  get_text : str
}.

(** The markup of a page is represented by what
    [soup.find_all("a", href=True)] yields for it: its anchors in document
    order. The call of the parser itself (line 34), which raises on markup
    it rejects, is explicit in [parse_posts_text] and [main_text] below. *)
Definition Html := list Tag.

(** The dict appended to [results]. *)
Record Post : Type := mkPost {
  title : str;
  url : str;
  blogger : str
}.

Definition host : str := lit "blog.naver.com".
Definition marker : str := lit "blog.naver.com/".
Definition qmark : str := lit "?".
Definition slash : str := lit "/".

Local Open Scope outcome_scope.

(** [href.split("?")[0]] *)
Definition strip_query (h : str) : Outcome str :=
  parts <- split qmark h ;;
  getitem parts 0.

(** Lines 52-54: the blogger id. *)
Definition blogger_of (u : str) : Outcome str :=
  if contains marker u then
    parts <- split marker u ;;
    rest <- getitem parts 1 ;;
    segs <- split slash rest ;;
    getitem segs 0
  else Ok [].

(** The body of the first loop for one anchor: [None] stands for
    [continue], [Some p] for the dict that is appended. *)
Definition candidate (a : Tag) : Outcome (option Post) :=
  let h := href a in
  if negb (contains host h) then Ok None
  else
    u <- strip_query h ;;
    let t := get_text a in
    if is_empty t then Ok None
    else
      b <- blogger_of u ;;
      Ok (Some {| title := slice_to 200 t; url := u; blogger := b |}).

(** The first loop, with [results] as accumulator. *)
Fixpoint collect (soup : Html) (results : list Post) : Outcome (list Post) :=
  match soup with
  | [] => Ok results
  | a :: soup' =>
      c <- candidate a ;;
      collect soup' (match c with
                     | Some p => results ++ [p]
                     | None => results
                     end)
  end.

(** [d[k] = v] on an insertion-ordered dict. *)
Fixpoint dict_set (k : str) (v : Post) (d : list (str * Post)) : list (str * Post) :=
  match d with
  | [] => [(k, v)]
  | (k', v') :: d' =>
      if eqb k' k then (k', v) :: d'
      else (k', v') :: dict_set k v d'
  end.

(** [list(d.values())] *)
Definition values (d : list (str * Post)) : list Post := map snd d.

(** The second loop, with [unique] as accumulator. *)
Definition dedup (results : list Post) : list (str * Post) :=
  fold_left (fun unique item => dict_set (url item) item unique) results [].

Definition parse_posts (soup : Html) : Outcome (list Post) :=
  results <- collect soup [] ;;
  Ok (values (dedup results)).

(** ** The world: feed, Notion database, clock, console *)

(** What [fetch_page] reads of the response to its GET. *)
Record FeedResponse : Type := mkFeed {
  feed_status : Z;
  feed_text : Html
}.

(** What the Notion calls read of a response: [status_code], [text] and,
    of the JSON body, [len(res.json().get("results", []))] (or the
    exception that computing it raises). *)
Record ApiResponse : Type := mkApi {
  status_code : Z;
  text : str;
  results_len : Outcome nat
}.

(** The properties of the page that [create_notion_page] posts. *)
Record Payload : Type := mkPayload {
  Name : str;
  Blogger : str;
  URL : str;
  Scraped_At : str
}.

(** What [fetch_page] reads of the response to its GET when the body is
    kept as text. *)
Record TextResponse : Type := mkText {
  text_status : Z;
  text_body : str
}.

(** The lines the script prints. *)
Inductive message : Type :=
| MsgFetchPage (page : Z)
| MsgPageFetchError (e : exn)
| MsgNoPosts
| MsgQueryError (body : str)
| MsgInsertError (body : str)
| MsgSaved (t u : str)
| MsgDone (new_count : Z).

Inductive event : Type :=
| EGet (page : Z) (r : Outcome FeedResponse)
| EGetText (page : Z) (r : Outcome TextResponse)
| EQuery (u : str) (r : Outcome ApiResponse)
| ECreate (pl : Payload) (r : Outcome ApiResponse)
| ESleep (milliseconds : Z)
| EPrint (m : message).

(** [range(lo, hi)] *)
Definition range (lo hi : Z) : list Z :=
  map (fun i => (lo + Z.of_nat i)%Z) (seq 0 (Z.to_nat (hi - lo))).

(** ** Statements of the script *)

Section Prog.

(** The state of everything outside the script. *)
Variable W : Type.

Record State : Type := mkState {
  world : W;
  trace : list event
}.

(** A statement may raise, and changes the state either way. *)
Definition Prog (A : Type) : Type := State -> Outcome A * State.

Definition ret {A : Type} (a : A) : Prog A := fun st => (Ok a, st).

Definition raise {A : Type} (e : exn) : Prog A := fun st => (Raise e, st).

Definition bind {A B : Type} (m : Prog A) (k : A -> Prog B) : Prog B :=
  fun st =>
    match m st with
    | (Ok a, st') => k a st'
    | (Raise e, st') => (Raise e, st')
    end.

(** [try: m except Exception as e: ...] hands the outcome to the handler. *)
Definition try {A : Type} (m : Prog A) : Prog (Outcome A) :=
  fun st => let (r, st') := m st in (Ok r, st').

Definition lift {A : Type} (r : Outcome A) : Prog A := fun st => (r, st).

Definition emit (ev : event) : Prog unit :=
  fun st => (Ok tt, {| world := world st; trace := trace st ++ [ev] |}).

Definition print (m : message) : Prog unit := emit (EPrint m).

(** [time.sleep], in milliseconds. *)
Definition sleep (milliseconds : Z) : Prog unit := emit (ESleep milliseconds).

(** A request: the world answers, and the exchange is recorded. *)
Definition call {Q R : Type} (oracle : W -> Q -> W * Outcome R)
    (mk : Q -> Outcome R -> event) (q : Q) : Prog R :=
  fun st =>
    let (w', r) := oracle (world st) q in
    (r, {| world := w'; trace := trace st ++ [mk q r] |}).

End Prog.

Arguments ret {W A} a.
Arguments raise {W A} e.
Arguments lift {W A} r.
Arguments emit {W} ev.
Arguments print {W} m.
Arguments sleep {W} milliseconds.
Arguments mkState {W} world trace.

Declare Scope prog_scope.
Delimit Scope prog_scope with prog.
Notation "x <~ m ;; k" := (bind m (fun x => k))
  (at level 61, m at next level, right associativity) : prog_scope.
Notation "m ;;; k" := (bind m (fun _ => k))
  (at level 61, right associativity) : prog_scope.

(** How the world answers: the feed, the two Notion endpoints, the clock. *)
Record Network (W : Type) : Type := mkNetwork {
  requests_get : W -> Z -> W * Outcome FeedResponse;
  requests_post_query : W -> str -> W * Outcome ApiResponse;
  requests_post_pages : W -> Payload -> W * Outcome ApiResponse;
  utcnow_isoformat : W -> W * str
}.

Section Script.

Variable W : Type.
Variable net : Network W.

Local Open Scope prog_scope.
Local Open Scope Z_scope.

(** [datetime.utcnow().isoformat()] *)
Definition utcnow : Prog W str :=
  fun st =>
    let (w', now) := utcnow_isoformat net (world st) in
    (Ok now, {| world := w'; trace := trace st |}).

(** [resp.raise_for_status()] of requests: [HTTPError] for a client or
    server error status, nothing otherwise. *)
Definition raise_for_status (resp : FeedResponse) : Prog W unit :=
  let s := feed_status resp in
  if (400 <=? s) && (s <? 600) then raise (HTTPError s) else ret tt.

Definition fetch_page (page : Z) : Prog W Html :=
  resp <~ call (requests_get net) EGet page ;;
  raise_for_status resp ;;;
  ret (feed_text resp).

Definition notion_page_exists (u : str) : Prog W bool :=
  res <~ call (requests_post_query net) EQuery u ;;
  if negb (status_code res =? 200) then
    print (MsgQueryError (text res)) ;;;
    ret false
  else
    n <~ lift (results_len res) ;;
    ret (0 <? n)%nat.

Definition create_notion_page (t b u : str) : Prog W unit :=
  now <~ utcnow ;;
  res <~ call (requests_post_pages net) ECreate
           {| Name := t; Blogger := b; URL := u; Scraped_At := now |} ;;
  if negb (status_code res =? 200) then print (MsgInsertError (text res))
  else print (MsgSaved t u).

(** The loop over the posts of one page (lines 146-152). *)
Fixpoint for_posts (posts : list Post) (new_count : Z) : Prog W Z :=
  match posts with
  | [] => ret new_count
  | p :: posts' =>
      known <~ notion_page_exists (url p) ;;
      if known then for_posts posts' new_count
      else
        create_notion_page (title p) (blogger p) (url p) ;;;
        sleep 300 ;;;
        for_posts posts' (new_count + 1)
  end.

(** The body of the loop over the pages (lines 134-154). *)
Definition for_page (page : Z) (new_count : Z) : Prog W Z :=
  print (MsgFetchPage page) ;;;
  fetched <~ try (fetch_page page) ;;
  match fetched with
  | Raise e =>
      print (MsgPageFetchError e) ;;;
      ret new_count
  | Ok html =>
      posts <~ lift (parse_posts html) ;;
      match posts with
      | [] =>
          print MsgNoPosts ;;;
          ret new_count
      | _ :: _ =>
          n <~ for_posts posts new_count ;;
          sleep 1000 ;;;
          ret n
      end
  end.

Fixpoint for_pages (pages : list Z) (new_count : Z) : Prog W Z :=
  match pages with
  | [] => ret new_count
  | page :: pages' =>
      n <~ for_page page new_count ;;
      for_pages pages' n
  end.

Definition max_page : Z := 5.

Definition main : Prog W unit :=
  new_count <~ for_pages (range 1 (max_page + 1)) 0 ;;
  print (MsgDone new_count).

End Script.

(** ** The script with the HTML parser made explicit *)

Section ScriptText.

(** The Notion endpoints and the clock are those of [net]; the feed answers
    with text, and [BeautifulSoup_a_href html] is what
    [BeautifulSoup(html, "html.parser")] followed by
    [find_all("a", href=True)] gives: the anchors of the markup, or the
    exception the parser raises on markup it rejects. *)
Variable W : Type.
Variable net : Network W.
Variable requests_get_text : W -> Z -> W * Outcome TextResponse.
Variable BeautifulSoup_a_href : str -> Outcome Html.

Local Open Scope prog_scope.
Local Open Scope Z_scope.

Definition raise_for_status_text (resp : TextResponse) : Prog W unit :=
  let s := text_status resp in
  if (400 <=? s) && (s <? 600) then raise (HTTPError s) else ret tt.

Definition fetch_page_text (page : Z) : Prog W str :=
  resp <~ call requests_get_text EGetText page ;;
  raise_for_status_text resp ;;;
  ret (text_body resp).

(** Lines 33-66, from the text of the page. *)
Definition parse_posts_text (html : str) : Outcome (list Post) :=
  obind (BeautifulSoup_a_href html) parse_posts.

(** The body of the loop over the pages (lines 134-154): only the call of
    [fetch_page] stands inside the [try]. *)
Definition for_page_text (page : Z) (new_count : Z) : Prog W Z :=
  print (MsgFetchPage page) ;;;
  fetched <~ try (fetch_page_text page) ;;
  match fetched with
  | Raise e =>
      print (MsgPageFetchError e) ;;;
      ret new_count
  | Ok html =>
      posts <~ lift (parse_posts_text html) ;;
      match posts with
      | [] =>
          print MsgNoPosts ;;;
          ret new_count
      | _ :: _ =>
          n <~ for_posts net posts new_count ;;
          sleep 1000 ;;;
          ret n
      end
  end.

Fixpoint for_pages_text (pages : list Z) (new_count : Z) : Prog W Z :=
  match pages with
  | [] => ret new_count
  | page :: pages' =>
      n <~ for_page_text page new_count ;;
      for_pages_text pages' n
  end.

Definition main_text : Prog W unit :=
  new_count <~ for_pages_text (range 1 (max_page + 1)) 0 ;;
  print (MsgDone new_count).

End ScriptText.


(** ** Vocabulary of the properties *)

Definition qmark_char : char := 63%N.

(** The text before the first [c], all of it when [c] does not occur. *)
Fixpoint before_first (c : char) (s : str) : str :=
  match s with
  | [] => []
  | x :: s' => if N.eqb x c then [] else x :: before_first c s'
  end.

(** The canonical URL of a link: its target without the query string. *)
Definition canonical (a : Tag) : str := before_first qmark_char (href a).

(** The links the first loop keeps: the target names the blog host and the
    visible text is not empty. *)
Definition retained (a : Tag) : bool :=
  contains host (href a) && negb (is_empty (get_text a)).

(** The posts appended to [results], in document order. *)
Definition candidates (soup : Html) : list Post :=
  flat_map (fun a => match candidate a with
                     | Ok (Some p) => [p]
                     | _ => []
                     end) soup.

(** The distinct elements of a sequence, each where it first occurs. *)
Fixpoint first_occurrences (us : list str) : list str :=
  match us with
  | [] => []
  | u :: us' => u :: filter (fun v => negb (eqb v u)) (first_occurrences us')
  end.

(** The last post of a sequence that carries the URL [u]. *)
Fixpoint last_with (u : str) (ps : list Post) : option Post :=
  match ps with
  | [] => None
  | p :: ps' =>
      match last_with u ps' with
      | Some q => Some q
      | None => if eqb (url p) u then Some p else None
      end
  end.

(** What the dict holds after the posts [ps] went through the second
    loop. *)
Definition dedup_state (ps : list Post) (d : list (str * Post)) : Prop :=
  map fst d = first_occurrences (map url ps) /\
  forall k v, In (k, v) d -> last_with k ps = Some v.

(** Dedup-within-batch read over all hyperlinks of the markup: whenever
    [us] lists the distinct canonical URLs of the links, extraction
    returns [length us] posts. *)
Definition dedup_over_all_links (soup : Html) : Prop :=
  forall us : list str,
    NoDup us ->
    (forall u, In u us <-> exists a, In a soup /\ canonical a = u) ->
    exists posts, parse_posts soup = Ok posts /\ length posts = length us.

(** ** Sample pages *)

(** The two links of the end-to-end scenario. *)
Definition alice_links : Html :=
  [ mkTag (lit "https://blog.naver.com/alice/123?from=home") (lit "Hello");
    mkTag (lit "https://blog.naver.com/alice/123") (lit "Hello Again") ].

(** A post link next to a link that leaves the blog host. *)
Definition mixed_links : Html :=
  [ mkTag (lit "https://blog.naver.com/alice/123") (lit "Hello");
    mkTag (lit "https://example.com/about") (lit "About") ].

(** A link to the blog host without the author path marker. *)
Definition mobile_links : Html :=
  [ mkTag (lit "https://m.blog.naver.com?id=alice") (lit "Mobile home") ].

(** ** Vocabulary of the run *)

(** Every event a statement adds to the trace satisfies [P]. *)
Definition emits {W A : Type} (m : Prog W A) (P : event -> Prop) : Prop :=
  forall st, exists evs,
    trace (snd (m st)) = trace st ++ evs /\ Forall P evs.

Definition is_create (ev : event) : bool :=
  match ev with
  | ECreate _ _ => true
  | _ => false
  end.

Definition is_saved (ev : event) : bool :=
  match ev with
  | EPrint (MsgSaved _ _) => true
  | _ => false
  end.

(** An event that is a creation call carries the fields of one of
    [posts]. *)
Definition posted (posts : list Post) (ev : event) : Prop :=
  forall pl r, ev = ECreate pl r ->
    exists p, In p posts /\
      Name pl = title p /\ Blogger pl = blogger p /\ URL pl = url p.

(** The record [pl] was made from a retained link of the page [html]. *)
Definition created_from (html : Html) (pl : Payload) : Prop :=
  exists a,
    In a html /\ retained a = true /\
    URL pl = canonical a /\
    Name pl = slice_to 200 (get_text a) /\
    (200 < length (get_text a) -> length (Name pl) = 200)%nat /\
    (length (get_text a) <= 200 -> Name pl = get_text a)%nat.

(** Every creation call of a stretch of the trace is for a link of a page
    fetched in that stretch. *)
Definition creations_from_feed (evs : list event) : Prop :=
  forall pl r, In (ECreate pl r) evs ->
    exists page resp,
      In (EGet page (Ok resp)) evs /\ created_from (feed_text resp) pl.

(** The GET of [fetch_page] makes [fetch_page] raise: the transport raised,
    or the status is one for which [raise_for_status] raises. *)
Definition fetch_fails (r : Outcome FeedResponse) : Prop :=
  match r with
  | Raise _ => True
  | Ok resp => (400 <= feed_status resp < 600)%Z
  end.

(** The exception [fetch_page] then raises. *)
Definition fetch_error (r : Outcome FeedResponse) : exn :=
  match r with
  | Raise e => e
  | Ok resp => HTTPError (feed_status resp)
  end.

(** The URL [u] belongs to a batch: it is the URL of a post of a page the
    feed can answer with. *)
Definition in_batch {W : Type} (net : Network W) (u : str) : Prop :=
  exists w page w' resp posts p,
    requests_get net w page = (w', Ok resp) /\
    parse_posts (feed_text resp) = Ok posts /\
    In p posts /\ url p = u.

(** The store answers the existence query for [u] with a match. *)
Definition store_has {W : Type} (net : Network W) (u : str) : Prop :=
  forall w, exists w' res n,
    requests_post_query net w u = (w', Ok res) /\
    status_code res = 200%Z /\
    results_len res = Ok (S n).

(** Fetch-failure resilience read over every status outside 200..299: such
    a page leaves the counter as it was. *)
Definition non_2xx_skips_page {W : Type} (net : Network W) : Prop :=
  forall st page n w' resp,
    requests_get net (world st) page = (w', Ok resp) ->
    ~ (200 <= feed_status resp < 300)%Z ->
    fst (for_page net page n st) = Ok n.

(** ** Sample worlds *)

(** A world without memory: each request is answered by its content. *)
Definition static_net (feed : Z -> Outcome FeedResponse)
    (query : str -> Outcome ApiResponse)
    (create : Payload -> Outcome ApiResponse) : Network unit :=
  {| requests_get := fun w page => (w, feed page);
     requests_post_query := fun w u => (w, query u);
     requests_post_pages := fun w pl => (w, create pl);
     utcnow_isoformat := fun w => (w, lit "2024-01-01T00:00:00") |}.

Definition api_match : ApiResponse := mkApi 200 (lit "{results: [page]}") (Ok 1%nat).
Definition api_no_match : ApiResponse := mkApi 200 (lit "{results: []}") (Ok 0%nat).
Definition api_created : ApiResponse := mkApi 200 (lit "{object: page}") (Ok 0%nat).
Definition api_error : ApiResponse := mkApi 500 (lit "internal_server_error") (Ok 0%nat).

(** Every page shows the two links of the scenario; the store knows them. *)
Definition known_net : Network unit :=
  static_net (fun _ => Ok (mkFeed 200 alice_links))
             (fun _ => Ok api_match)
             (fun _ => Ok api_created).

(** The existence query is answered with a server error. *)
Definition query_error_net : Network unit :=
  static_net (fun _ => Ok (mkFeed 200 alice_links))
             (fun _ => Ok api_error)
             (fun _ => Ok api_created).

(** Page 1 shows the scenario's links, the store does not know the post and
    refuses to create it. *)
Definition insert_error_net : Network unit :=
  static_net (fun page => Ok (mkFeed 200 (if (page =? 1)%Z then alice_links else [])))
             (fun _ => Ok api_no_match)
             (fun _ => Ok api_error).

(** Page 3 is answered with status 300 and a body that holds the links. *)
Definition multiple_choices_net : Network unit :=
  static_net (fun page => Ok (if (page =? 3)%Z then mkFeed 300 alice_links
                              else mkFeed 200 []))
             (fun _ => Ok api_no_match)
             (fun _ => Ok api_created).

(** Page 3 times out; the other pages show the links, unknown to the store. *)
Definition timeout_net : Network unit :=
  static_net (fun page => if (page =? 3)%Z then Raise Timeout
                          else Ok (mkFeed 200 alice_links))
             (fun _ => Ok api_no_match)
             (fun _ => Ok api_created).

Definition start : State unit := mkState tt [].

(** ** Vocabulary of the further properties *)

Definition slash_char : char := 47%N.

(** [sep.join(parts)] *)
Fixpoint join (sep : str) (parts : list str) : str :=
  match parts with
  | [] => []
  | [x] => x
  | x :: parts' => x ++ sep ++ join sep parts'
  end.

(** The record [create_notion_page] sends for the post [p] at the instant
    [now]. *)
Definition payload_of (p : Post) (now : str) : Payload :=
  {| Name := title p; Blogger := blogger p; URL := url p; Scraped_At := now |}.

(** The line [create_notion_page] prints for the answer [res]. *)
Definition verdict (pl : Payload) (res : ApiResponse) : message :=
  if (status_code res =? 200)%Z then MsgSaved (Name pl) (URL pl)
  else MsgInsertError (text res).

(** The events of an existence check for [u] that ends with [False]: the
    query was answered with an empty result list, or with an error status,
    which is then printed. *)
Definition negative_query (u : str) (q : list event) : Prop :=
  exists res,
    (q = [EQuery u (Ok res)] /\
     status_code res = 200%Z /\ results_len res = Ok 0%nat) \/
    (q = [EQuery u (Ok res); EPrint (MsgQueryError (text res))] /\
     status_code res <> 200%Z).

(** The events one post can add to the trace: the query alone (the post is
    known, or the check raised), or a negative check followed by the
    creation call, which raises or is answered, reported and followed by
    the pause. *)
Inductive item_events (p : Post) : list event -> Prop :=
| item_asked (r : Outcome ApiResponse) :
    item_events p [EQuery (url p) r]
| item_refused (q : list event) (now : str) (e : exn) :
    negative_query (url p) q ->
    item_events p (q ++ [ECreate (payload_of p now) (Raise e)])
| item_created (q : list event) (now : str) (res : ApiResponse) :
    negative_query (url p) q ->
    item_events p (q ++ [ ECreate (payload_of p now) (Ok res);
                          EPrint (verdict (payload_of p now) res);
                          ESleep 300 ]).

(** The events of the loop over the pages itself. *)
Definition page_event (ev : event) : bool :=
  match ev with
  | EGet _ _ => true
  | ESleep ms => (ms =? 1000)%Z
  | EPrint (MsgFetchPage _) => true
  | EPrint (MsgPageFetchError _) => true
  | EPrint MsgNoPosts => true
  | EPrint (MsgDone _) => true
  | _ => false
  end.

Definition is_insert_error (ev : event) : bool :=
  match ev with
  | EPrint (MsgInsertError _) => true
  | _ => false
  end.

(** The pages requested from the feed, in the order of the requests. *)
Definition fetched (evs : list event) : list Z :=
  flat_map (fun ev => match ev with
                      | EGet page _ => [page]
                      | _ => []
                      end) evs.

(** The Notion endpoints always answer, and a 200 answer to the query has a
    body whose result list can be read. *)
Definition notion_answers {W : Type} (net : Network W) : Prop :=
  (forall w u, exists w' res,
      requests_post_query net w u = (w', Ok res) /\
      (status_code res = 200%Z -> exists k, results_len res = Ok k)) /\
  (forall w pl, exists w' res, requests_post_pages net w pl = (w', Ok res)).

(** The existence check for [u] that stands right before a point of the
    trace ended with [False]. *)
Definition unknown_before (pre : list event) (u : str) : Prop :=
  exists pre' q, pre = pre' ++ q /\ negative_query u q.

(** The feed answers page 1 with the scenario's links; the existence query
    times out. *)
Definition query_timeout_net : Network unit :=
  static_net (fun _ => Ok (mkFeed 200 alice_links))
             (fun _ => Raise Timeout)
             (fun _ => Ok api_created).

(** The number of events of a stretch of the trace that satisfy [f]. *)
Definition count (f : event -> bool) (evs : list event) : nat :=
  length (filter f evs).

(** What a stretch of the trace says about the counter when the stretch
    ends normally: the counter grew by the number of creation calls, each
    of which was reported as saved or as an error. *)
Definition counted (n : Z) (evs : list event) (r : Outcome Z) : Prop :=
  forall m, r = Ok m ->
    m = (n + Z.of_nat (count is_create evs))%Z /\
    count is_create evs = (count is_saved evs + count is_insert_error evs)%nat.

(** A store that tells the truth and keeps what it is given: [stored w u]
    says that the world [w] holds a record for the URL [u]. The feed
    answers each page by [feed]; the query finds a match exactly for the
    stored URLs; a creation call stores the URL; nothing is ever lost. *)
Definition truthful_store {W : Type} (net : Network W)
    (stored : W -> str -> Prop) (feed : Z -> Outcome FeedResponse) : Prop :=
  (forall w page, exists w',
      requests_get net w page = (w', feed page) /\
      forall v, stored w v -> stored w' v) /\
  (forall w u, exists w' res k,
      requests_post_query net w u = (w', Ok res) /\
      status_code res = 200%Z /\ results_len res = Ok k /\
      (stored w u <-> (0 < k)%nat) /\
      forall v, stored w v -> stored w' v) /\
  (forall w pl, exists w' res,
      requests_post_pages net w pl = (w', Ok res) /\
      stored w' (URL pl) /\
      forall v, stored w v -> stored w' v) /\
  (forall w, exists w' now,
      utcnow_isoformat net w = (w', now) /\
      forall v, stored w v -> stored w' v).

(** The posts of the pages [pages], as [fetch_page] and [parse_posts] get
    them from the feed [feed], are all stored in [w]. *)
Definition pages_stored {W : Type} (stored : W -> str -> Prop)
    (feed : Z -> Outcome FeedResponse) (pages : list Z) (w : W) : Prop :=
  forall page resp posts p,
    In page pages ->
    feed page = Ok resp ->
    ~ (400 <= feed_status resp < 600)%Z ->
    parse_posts (feed_text resp) = Ok posts ->
    In p posts -> stored w (url p).

(** A store kept as the list of its URLs, behind a feed that answers each
    page by [feed]. *)
Definition list_store_net (feed : Z -> Outcome FeedResponse) : Network (list str) :=
  {| requests_get := fun w page => (w, feed page);
     requests_post_query := fun w u =>
       (w, Ok (mkApi 200 (lit "{results: ...}")
                 (Ok (if existsb (eqb u) w then 1%nat else 0%nat))));
     requests_post_pages := fun w pl => (URL pl :: w, Ok api_created);
     utcnow_isoformat := fun w => (w, lit "2024-01-01T00:00:00") |}.

(** ** Vocabulary of the revised properties *)

(** The store knows no URL and accepts every record: each existence query
    is answered with an error status or an empty result list, each creation
    call is answered. *)
Definition fresh_store {W : Type} (net : Network W) : Prop :=
  (forall w u, exists w' res,
      requests_post_query net w u = (w', Ok res) /\
      (status_code res <> 200%Z \/ results_len res = Ok 0%nat)) /\
  (forall w pl, exists w' res, requests_post_pages net w pl = (w', Ok res)).

(** The order and the survivor read over all the links of the markup: the
    posts stand in the order in which their URLs first occur among the
    canonical URLs of the links, and each post has the title of the last
    link with its URL. *)
Definition order_over_all_links (soup : Html) : Prop :=
  exists posts,
    parse_posts soup = Ok posts /\
    map url posts =
      filter (fun u => existsb (eqb u) (map url posts))
             (first_occurrences (map canonical soup)) /\
    forall p, In p posts ->
      exists before a after,
        soup = before ++ a :: after /\
        canonical a = url p /\
        (forall a', In a' after -> canonical a' <> url p) /\
        title p = slice_to 200 (get_text a).

(** A post link without text stands before another post and before a
    second link to the same post, which has a text. *)
Definition hidden_first : Html :=
  [ mkTag (lit "https://blog.naver.com/a/1") [];
    mkTag (lit "https://blog.naver.com/b/2") (lit "B");
    mkTag (lit "https://blog.naver.com/a/1") (lit "A") ].

(** The last link to a post has no text. *)
Definition hidden_last : Html :=
  [ mkTag (lit "https://blog.naver.com/a/1") (lit "A");
    mkTag (lit "https://blog.naver.com/a/1?from=home") [] ].

(** Page 1 shows one link whose text has 250 code points; the store knows
    nothing. *)
Definition long_title_net : Network unit :=
  static_net (fun page => Ok (mkFeed 200
                (if (page =? 1)%Z
                 then [mkTag (lit "https://blog.naver.com/bob/7?x=1") (repeat 65%N 250)]
                 else [])))
             (fun _ => Ok api_no_match)
             (fun _ => Ok api_created).

(** A parser for the sample pages: the text [alice] stands for the markup
    of the scenario, a text that begins with [<!] is rejected, any other
    text has no anchor. *)
Definition sample_soup (html : str) : Outcome Html :=
  if eqb html (lit "alice") then Ok alice_links
  else if startswith (lit "<!") html then Raise ParserRejectedMarkup
  else Ok [].

(** A feed of text pages: page 3 times out, the others show the scenario. *)
Definition timeout_text_feed (w : unit) (page : Z) : unit * Outcome TextResponse :=
  (w, if (page =? 3)%Z then Raise Timeout else Ok (mkText 200 (lit "alice"))).

(** A feed whose first page holds markup the parser rejects. *)
Definition rejected_text_feed (w : unit) (page : Z) : unit * Outcome TextResponse :=
  (w, Ok (mkText 200 (lit "<![x]>"))).

(** The response to a GET as the run on anchors sees it: the status, and
    the anchors of the body (none for a body the parser rejects). *)
Definition parsed_response (soup : str -> Outcome Html)
    (r : Outcome TextResponse) : Outcome FeedResponse :=
  match r with
  | Ok resp =>
      Ok (mkFeed (text_status resp)
                 (match soup (text_body resp) with
                  | Ok anchors => anchors
                  | Raise _ => []
                  end))
  | Raise e => Raise e
  end.

(** The world of the run on anchors that stands behind a feed of text
    pages and a parser. *)
Definition parsed_net {W : Type} (net : Network W)
    (get_text : W -> Z -> W * Outcome TextResponse)
    (soup : str -> Outcome Html) : Network W :=
  {| requests_get := fun w page =>
       let (w', r) := get_text w page in (w', parsed_response soup r);
     requests_post_query := requests_post_query net;
     requests_post_pages := requests_post_pages net;
     utcnow_isoformat := utcnow_isoformat net |}.

(** An event of the run on text, seen as an event of the run on anchors. *)
Definition anchors_view (soup : str -> Outcome Html) (ev : event) : event :=
  match ev with
  | EGetText page r => EGet page (parsed_response soup r)
  | _ => ev
  end.

Definition view_state {W : Type} (soup : str -> Outcome Html) (st : State W) : State W :=
  mkState (world st) (map (anchors_view soup) (trace st)).

Definition view_run {W A : Type} (soup : str -> Outcome Html)
    (run : Outcome A * State W) : Outcome A * State W :=
  (fst run, view_state soup (snd run)).

(** * Properties *)

Unset Implicit Arguments.

(** ** Strings *)

Lemma eqb_eq (a b : str) : eqb a b = true <-> a = b.
Proof.
  revert b; induction a as [|x a IH]; intros [|y b]; simpl; split;
    try congruence; try reflexivity.
  - intros H. apply andb_true_iff in H as [Hx Hab].
    apply N.eqb_eq in Hx. apply IH in Hab. congruence.
  - intros H. injection H as -> ->.
    rewrite N.eqb_refl. simpl. now apply IH.
Qed.

Lemma eqb_refl (a : str) : eqb a a = true.
Proof. now apply eqb_eq. Qed.

Lemma eqb_neq (a b : str) : eqb a b = false <-> a <> b.
Proof.
  split.
  - intros H E. apply eqb_eq in E. congruence.
  - intros H. destruct (eqb a b) eqn:E; [apply eqb_eq in E; contradiction | reflexivity].
Qed.

Lemma eqb_sym (a b : str) : eqb a b = eqb b a.
Proof.
  destruct (eqb a b) eqn:E1, (eqb b a) eqn:E2; try reflexivity.
  - apply eqb_eq in E1. subst. rewrite eqb_refl in E2. discriminate.
  - apply eqb_eq in E2. subst. rewrite eqb_refl in E1. discriminate.
Qed.

Lemma startswith_app (p s : str) :
  startswith p s = true <-> exists t, s = p ++ t.
Proof.
  revert s; induction p as [|x p IH]; intros s; simpl.
  - split; [intros _; now exists s | reflexivity].
  - destruct s as [|y s].
    + split; [discriminate | intros [t Ht]; discriminate].
    + rewrite andb_true_iff, N.eqb_eq, IH. split.
      * intros [-> [t ->]]. now exists t.
      * intros [t Ht]. injection Ht as -> ->. split; [reflexivity | now exists t].
Qed.

Lemma find_sep_app (sep s before after : str) :
  find_sep sep s = Some (before, after) -> s = before ++ sep ++ after.
Proof.
  revert before after; induction s as [|c s IH]; intros before after; simpl.
  - destruct (startswith sep []) eqn:E; [|discriminate].
    intros H. injection H as <- <-.
    apply startswith_app in E as [t Ht].
    destruct sep; [|discriminate]. reflexivity.
  - destruct (startswith sep (c :: s)) eqn:E.
    + intros H. injection H as <- <-.
      apply startswith_app in E as [t Ht]. rewrite Ht at 1.
      simpl. f_equal. rewrite Ht, skipn_app, skipn_all, Nat.sub_diag. reflexivity.
    + destruct (find_sep sep s) as [[b a]|]; [|discriminate].
      intros H. injection H as <- <-. simpl. f_equal. now apply IH.
Qed.

Lemma contains_find_sep (sep s : str) :
  contains sep s = false <-> find_sep sep s = None.
Proof.
  induction s as [|c s IH]; simpl.
  - destruct (startswith sep []); simpl; split; congruence.
  - destruct (startswith sep (c :: s)); simpl.
    + split; discriminate.
    + rewrite IH. destruct (find_sep sep s) as [[b a]|]; split; congruence.
Qed.

Lemma contains_app_l (sub s t : str) :
  contains sub s = true -> contains sub (s ++ t) = true.
Proof.
  induction s as [|c s IH]; simpl.
  - rewrite orb_false_r. intros H. destruct sub; [|discriminate].
    destruct t; reflexivity.
  - intros H. apply orb_true_iff in H as [H|H].
    + apply startswith_app in H as [r Hr].
      assert (E : startswith sub (c :: s ++ t) = true).
      { apply startswith_app. exists (r ++ t).
        change (c :: s ++ t) with ((c :: s) ++ t). rewrite Hr. now rewrite app_assoc. }
      rewrite E. reflexivity.
    + rewrite (IH H). apply orb_true_r.
Qed.

Lemma before_first_prefix (c : char) (s : str) :
  exists t, s = before_first c s ++ t.
Proof.
  induction s as [|x s [t IH]]; simpl.
  - now exists [].
  - destruct (N.eqb x c).
    + now exists (x :: s).
    + exists t. simpl. now f_equal.
Qed.

Lemma before_first_free (c : char) (s : str) : ~ In c (before_first c s).
Proof.
  induction s as [|x s IH]; simpl; [tauto|].
  destruct (N.eqb x c) eqn:E; simpl; [tauto|].
  apply N.eqb_neq in E. intros [H|H]; [congruence | tauto].
Qed.

Lemma before_first_clean (c : char) (s : str) :
  ~ In c s -> before_first c s = s.
Proof.
  induction s as [|x s IH]; simpl; [reflexivity|].
  intros H. destruct (N.eqb x c) eqn:E.
  - apply N.eqb_eq in E. tauto.
  - f_equal. apply IH. tauto.
Qed.

Lemma before_first_idem (c : char) (s : str) :
  before_first c (before_first c s) = before_first c s.
Proof. apply before_first_clean, before_first_free. Qed.

Lemma find_sep_char (c : char) (s : str) :
  match find_sep [c] s with
  | Some (before, _) => before
  | None => s
  end = before_first c s.
Proof.
  induction s as [|x s IH]; simpl; [reflexivity|].
  rewrite andb_true_r, N.eqb_sym.
  destruct (N.eqb x c); [reflexivity|].
  destruct (find_sep [c] s) as [[b a]|]; simpl in *; congruence.
Qed.

Lemma split_fuel_head (fuel : nat) (sep s : str) :
  exists first rest, split_fuel fuel sep s = first :: rest.
Proof.
  destruct fuel; simpl; [now exists s, []|].
  destruct (find_sep sep s) as [[b a]|]; [|now exists s, []].
  now exists b, (split_fuel fuel sep a).
Qed.

Lemma strip_query_before_first (h : str) :
  strip_query h = Ok (before_first qmark_char h).
Proof.
  unfold strip_query. change qmark with [qmark_char]. simpl.
  rewrite <- find_sep_char.
  destruct h as [|x h]; [reflexivity|].
  cbn [length split_fuel].
  destruct (find_sep [qmark_char] (x :: h)) as [[b a]|]; reflexivity.
Qed.

Lemma split_ok (sep s : str) :
  sep <> [] -> split sep s = Ok (split_fuel (length s) sep s).
Proof. destruct sep; [congruence | reflexivity]. Qed.

Lemma marker_nonempty : marker <> [].
Proof. discriminate. Qed.

Lemma slash_nonempty : slash <> [].
Proof. discriminate. Qed.

Lemma blogger_of_total (u : str) : exists b, blogger_of u = Ok b.
Proof.
  unfold blogger_of. destruct (contains marker u) eqn:E; [|now exists []].
  rewrite (split_ok marker u marker_nonempty).
  destruct (find_sep marker u) as [[b a]|] eqn:Ef.
  - destruct u as [|x u]; [discriminate|].
    cbn [length split_fuel obind]. rewrite Ef.
    destruct (split_fuel_head (length u) marker a) as (rest & more & ->).
    cbn [getitem nth_error obind].
    rewrite (split_ok slash rest slash_nonempty).
    destruct (split_fuel_head (length rest) slash rest) as (seg & segs & ->).
    now exists seg.
  - apply contains_find_sep in Ef. congruence.
Qed.

Lemma blogger_of_absent (u : str) :
  contains marker u = false -> blogger_of u = Ok [].
Proof. unfold blogger_of. now intros ->. Qed.

(** ** The first loop *)

Lemma candidate_retained (a : Tag) :
  if retained a
  then exists b, blogger_of (canonical a) = Ok b /\
         candidate a = Ok (Some {| title := slice_to 200 (get_text a);
                                   url := canonical a;
                                   blogger := b |})
  else candidate a = Ok None.
Proof.
  unfold retained, candidate, canonical.
  destruct (contains host (href a)); simpl; [|reflexivity].
  rewrite strip_query_before_first. simpl.
  destruct (is_empty (get_text a)); simpl; [reflexivity|].
  destruct (blogger_of_total (before_first qmark_char (href a))) as [b Hb].
  exists b. rewrite Hb. split; reflexivity.
Qed.

Lemma candidate_total (a : Tag) : exists c, candidate a = Ok c.
Proof.
  generalize (candidate_retained a). destruct (retained a).
  - intros (b & _ & ->). eauto.
  - intros ->. eauto.
Qed.

Lemma candidate_Some (a : Tag) (p : Post) :
  candidate a = Ok (Some p) ->
  retained a = true /\
  title p = slice_to 200 (get_text a) /\
  url p = canonical a /\
  blogger_of (url p) = Ok (blogger p).
Proof.
  generalize (candidate_retained a). destruct (retained a).
  - intros (b & Hb & ->) H. injection H as <-. simpl. auto.
  - intros -> H. discriminate.
Qed.

Lemma collect_candidates (soup : Html) (results : list Post) :
  collect soup results = Ok (results ++ candidates soup).
Proof.
  revert results; induction soup as [|a soup IH]; intros results; simpl.
  - now rewrite app_nil_r.
  - destruct (candidate_total a) as [[p|] ->]; simpl; rewrite IH.
    + now rewrite <- app_assoc.
    + reflexivity.
Qed.

Lemma parse_posts_candidates (soup : Html) :
  parse_posts soup = Ok (values (dedup (candidates soup))).
Proof. unfold parse_posts. now rewrite collect_candidates. Qed.

Lemma in_candidates (soup : Html) (p : Post) :
  In p (candidates soup) <-> exists a, In a soup /\ candidate a = Ok (Some p).
Proof.
  unfold candidates. rewrite in_flat_map. split.
  - intros (a & Ha & Hp). exists a. split; [assumption|].
    destruct (candidate a) as [[q|]|]; simpl in Hp; try tauto.
    destruct Hp as [->|[]]. reflexivity.
  - intros (a & Ha & Hp). exists a. split; [assumption|].
    rewrite Hp. now left.
Qed.

(** ** The second loop *)

Lemma first_occurrences_In (u : str) (us : list str) :
  In u (first_occurrences us) <-> In u us.
Proof.
  induction us as [|x us IH]; simpl; [tauto|].
  rewrite filter_In, IH, negb_true_iff, eqb_neq.
  destruct (list_eq_dec N.eq_dec x u); intuition congruence.
Qed.

Lemma first_occurrences_NoDup (us : list str) : NoDup (first_occurrences us).
Proof.
  induction us as [|x us IH]; simpl; constructor.
  - rewrite filter_In, eqb_refl. simpl. intros [_ H]. discriminate.
  - now apply NoDup_filter.
Qed.

Lemma first_occurrences_snoc (us : list str) (x : str) :
  first_occurrences (us ++ [x]) =
  if existsb (eqb x) us then first_occurrences us
  else first_occurrences us ++ [x].
Proof.
  induction us as [|a us IH]; simpl; [reflexivity|].
  rewrite IH. destruct (existsb (eqb x) us); simpl.
  - now rewrite orb_true_r.
  - rewrite orb_false_r, filter_app. simpl.
    destruct (eqb x a); simpl; [now rewrite app_nil_r | reflexivity].
Qed.

Lemma existsb_eqb_In (x : str) (us : list str) :
  existsb (eqb x) us = true <-> In x us.
Proof.
  rewrite existsb_exists. split.
  - intros (y & Hy & E). apply eqb_eq in E. now subst.
  - intros H. exists x. split; [assumption | apply eqb_refl].
Qed.

Lemma last_with_snoc (u : str) (ps : list Post) (p : Post) :
  last_with u (ps ++ [p]) = if eqb (url p) u then Some p else last_with u ps.
Proof.
  induction ps as [|q ps IH]; simpl.
  - reflexivity.
  - rewrite IH. destruct (eqb (url p) u); reflexivity.
Qed.

Lemma last_with_Some (u : str) (ps : list Post) (p : Post) :
  last_with u ps = Some p ->
  url p = u /\
  exists before after,
    ps = before ++ p :: after /\ forall q, In q after -> url q <> u.
Proof.
  revert p; induction ps as [|q ps IH]; intros p; simpl; [discriminate|].
  destruct (last_with u ps) as [r|] eqn:E.
  - intros H. injection H as <-.
    destruct (IH r eq_refl) as (Hu & before & after & -> & Hafter).
    split; [assumption|]. now exists (q :: before), after.
  - destruct (eqb (url q) u) eqn:Eq; [|discriminate].
    intros H. injection H as <-. apply eqb_eq in Eq.
    split; [assumption|]. exists [], ps. split; [reflexivity|].
    intros r Hr Hur. clear IH.
    induction ps as [|s ps IHps]; [contradiction|].
    simpl in E. destruct (last_with u ps); [discriminate|].
    destruct (eqb (url s) u) eqn:Es; [discriminate|].
    destruct Hr as [->|Hr]; [|now apply IHps].
    apply eqb_neq in Es. contradiction.
Qed.

Lemma last_with_In (u : str) (ps : list Post) :
  In u (map url ps) -> exists p, last_with u ps = Some p.
Proof.
  induction ps as [|q ps IH]; simpl; [contradiction|].
  intros [H|H].
  - destruct (last_with u ps); [eauto|]. subst. rewrite eqb_refl. eauto.
  - destruct (IH H) as [p ->]. eauto.
Qed.

Lemma dict_set_absent (k : str) (v : Post) (d : list (str * Post)) :
  ~ In k (map fst d) -> dict_set k v d = d ++ [(k, v)].
Proof.
  induction d as [|[k' v'] d IH]; simpl; [reflexivity|].
  intros H. destruct (eqb k' k) eqn:E.
  - apply eqb_eq in E. tauto.
  - f_equal. apply IH. tauto.
Qed.

Lemma dict_set_present (k : str) (v : Post) (d : list (str * Post)) :
  In k (map fst d) -> map fst (dict_set k v d) = map fst d.
Proof.
  induction d as [|[k' v'] d IH]; simpl; [contradiction|].
  intros H. destruct (eqb k' k) eqn:E; simpl; [reflexivity|].
  f_equal. apply IH. destruct H as [H|H]; [|assumption].
  apply eqb_neq in E. contradiction.
Qed.

Lemma dict_set_In (k : str) (v : Post) (d : list (str * Post)) (k' : str) (v' : Post) :
  NoDup (map fst d) ->
  In (k', v') (dict_set k v d) ->
  (k' = k /\ v' = v) \/ (k' <> k /\ In (k', v') d).
Proof.
  induction d as [|[k0 v0] d IH]; simpl.
  - intros _ [H|[]]. injection H as <- <-. now left.
  - intros Hnd. inversion Hnd as [|? ? Hk0 Hnd']; subst.
    destruct (eqb k0 k) eqn:E.
    + apply eqb_eq in E. subst k0. intros [H|H].
      * injection H as <- <-. now left.
      * right. split; [|now right].
        intros ->. apply Hk0. apply in_map_iff. now exists (k, v').
    + apply eqb_neq in E. intros [H|H].
      * injection H as <- <-. right. split; [assumption | now left].
      * destruct (IH Hnd' H) as [?|[? ?]]; [now left | right; split; [assumption | now right]].
Qed.

Lemma dedup_state_step (ps : list Post) (d : list (str * Post)) (p : Post) :
  dedup_state ps d -> dedup_state (ps ++ [p]) (dict_set (url p) p d).
Proof.
  intros [Hkeys Hvals]. split.
  - rewrite map_app. simpl. rewrite first_occurrences_snoc.
    destruct (existsb (eqb (url p)) (map url ps)) eqn:E.
    + rewrite dict_set_present; [assumption|].
      rewrite Hkeys. apply first_occurrences_In. now apply existsb_eqb_In.
    + rewrite dict_set_absent, map_app; [now rewrite Hkeys|].
      rewrite Hkeys, first_occurrences_In, <- existsb_eqb_In. congruence.
  - intros k v H. rewrite last_with_snoc.
    apply dict_set_In in H.
    + destruct H as [[-> ->]|[Hk H]].
      * now rewrite eqb_refl.
      * apply eqb_neq in Hk. rewrite eqb_sym, Hk. now apply Hvals.
    + rewrite Hkeys. apply first_occurrences_NoDup.
Qed.

Lemma dedup_state_fold (ps done : list Post) (d : list (str * Post)) :
  dedup_state done d ->
  dedup_state (done ++ ps)
    (fold_left (fun unique item => dict_set (url item) item unique) ps d).
Proof.
  revert done d; induction ps as [|p ps IH]; intros done d H; simpl.
  - now rewrite app_nil_r.
  - replace (done ++ p :: ps) with ((done ++ [p]) ++ ps) by now rewrite <- app_assoc.
    apply IH. now apply dedup_state_step.
Qed.

Lemma dedup_state_dedup (ps : list Post) : dedup_state ps (dedup ps).
Proof.
  apply (dedup_state_fold ps [] []). split; [reflexivity | intros k v []].
Qed.

Lemma dedup_urls (ps : list Post) :
  map url (values (dedup ps)) = first_occurrences (map url ps).
Proof.
  destruct (dedup_state_dedup ps) as [Hkeys Hvals].
  rewrite <- Hkeys. unfold values. rewrite map_map.
  apply map_ext_in. intros [k v] H. simpl.
  now destruct (last_with_Some _ _ _ (Hvals k v H)).
Qed.

Lemma dedup_last (ps : list Post) (p : Post) :
  In p (values (dedup ps)) -> last_with (url p) ps = Some p.
Proof.
  destruct (dedup_state_dedup ps) as [_ Hvals].
  unfold values. rewrite in_map_iff. intros ([k v] & <- & H). simpl.
  pose proof (Hvals k v H) as Hl.
  destruct (last_with_Some _ _ _ Hl) as [-> _]. assumption.
Qed.

(** ** The posts of a page *)

Lemma candidates_urls (soup : Html) :
  map url (candidates soup) = map canonical (filter retained soup).
Proof.
  induction soup as [|a soup IH]; simpl; [reflexivity|].
  rewrite map_app, IH.
  generalize (candidate_retained a). destruct (retained a).
  - intros (b & _ & ->). reflexivity.
  - intros ->. reflexivity.
Qed.

Lemma candidates_split (soup : Html) (before after : list Post) (p : Post) :
  candidates soup = before ++ p :: after ->
  exists soup1 a soup2,
    soup = soup1 ++ a :: soup2 /\
    candidate a = Ok (Some p) /\
    candidates soup1 = before /\
    candidates soup2 = after.
Proof.
  revert before; induction soup as [|a soup IH]; intros before; simpl.
  - destruct before; discriminate.
  - destruct (candidate a) as [[q|]|e] eqn:Ea; simpl.
    + destruct before as [|q' before]; simpl; intros H; injection H as -> H.
      * exists [], a, soup. repeat split; assumption.
      * destruct (IH before H) as (s1 & a0 & s2 & -> & Hc & H1 & H2).
        exists (a :: s1), a0, s2. repeat split; try assumption.
        simpl. now rewrite Ea, H1.
    + intros H. destruct (IH before H) as (s1 & a0 & s2 & -> & Hc & H1 & H2).
      exists (a :: s1), a0, s2. repeat split; try assumption.
      simpl. now rewrite Ea, H1.
    + intros H. destruct (IH before H) as (s1 & a0 & s2 & -> & Hc & H1 & H2).
      exists (a :: s1), a0, s2. repeat split; try assumption.
      simpl. now rewrite Ea, H1.
Qed.

(** A post that survives the second loop was made from an anchor after
    which no retained anchor has the same canonical URL. *)
Lemma survivor_is_last (soup : Html) (p : Post) :
  In p (values (dedup (candidates soup))) ->
  exists before a after,
    soup = before ++ a :: after /\
    candidate a = Ok (Some p) /\
    forall a', In a' after -> retained a' = true -> canonical a' <> url p.
Proof.
  intros H. apply dedup_last in H.
  destruct (last_with_Some _ _ _ H) as (_ & pre & post & Hsplit & Hpost).
  apply candidates_split in Hsplit as (s1 & a & s2 & -> & Hc & _ & H2).
  exists s1, a, s2. repeat split; try assumption.
  intros a' Ha' Hr E.
  generalize (candidate_retained a'). rewrite Hr. intros (b & _ & Hc').
  apply (Hpost {| title := slice_to 200 (get_text a'); url := canonical a'; blogger := b |}).
  - rewrite <- H2. apply in_candidates. eauto.
  - exact E.
Qed.

Lemma retained_urls (soup : Html) (u : str) :
  In u (map url (candidates soup)) <->
  exists a, In a soup /\ retained a = true /\ canonical a = u.
Proof.
  rewrite candidates_urls, in_map_iff. split.
  - intros (a & E & Ha). apply filter_In in Ha. exists a. tauto.
  - intros (a & Ha & Hr & E). exists a. rewrite filter_In. tauto.
Qed.

Lemma NoDup_same_length (A : Type) (l1 l2 : list A) :
  NoDup l1 -> NoDup l2 -> (forall x, In x l1 <-> In x l2) ->
  length l1 = length l2.
Proof.
  intros H1 H2 H. apply Nat.le_antisymm.
  - apply NoDup_incl_length; [assumption | intros x; apply H].
  - apply NoDup_incl_length; [assumption | intros x; apply H].
Qed.

Lemma parse_posts_urls (soup : Html) :
  map url (values (dedup (candidates soup))) =
  first_occurrences (map canonical (filter retained soup)).
Proof. now rewrite dedup_urls, candidates_urls. Qed.

Lemma survivor_clean (soup : Html) (p : Post) :
  In p (values (dedup (candidates soup))) ->
  ~ In qmark_char (url p) /\ title p <> [].
Proof.
  intros Hp. apply survivor_is_last in Hp as (s1 & a & s2 & _ & Hc & _).
  apply candidate_Some in Hc as (Hr & Ht & Hu & _).
  split.
  - rewrite Hu. apply before_first_free.
  - rewrite Ht. unfold retained in Hr. apply andb_true_iff in Hr as [_ Hr].
    destruct (get_text a); [discriminate | simpl; discriminate].
Qed.

Example parse_posts_alice :
  parse_posts alice_links =
  Ok [ mkPost (lit "Hello Again") (lit "https://blog.naver.com/alice/123") (lit "alice") ].
Proof. vm_compute. reflexivity. Qed.

(** C9. Every extraction pass returns a sequence in which each URL occurs
    once, no URL contains a question mark (nothing from the first [?] on
    is kept) and no title is empty. *)
Theorem parse_posts_invariant (soup : Html) :
  exists posts,
    parse_posts soup = Ok posts /\
    NoDup (map url posts) /\
    forall p, In p posts -> ~ In qmark_char (url p) /\ title p <> [].
Proof.
  exists (values (dedup (candidates soup))). split; [apply parse_posts_candidates|].
  split.
  - rewrite dedup_urls. apply first_occurrences_NoDup.
  - intros p Hp. now apply (survivor_clean soup).
Qed.

(** C10. [parse_posts] is a function of the markup: its posts stand in the
    order in which their canonical URLs first occur among the retained
    links, and each post is the one made from the last retained link with
    its URL, whose title and blogger it carries. *)
Theorem parse_posts_order (soup : Html) :
  exists posts,
    parse_posts soup = Ok posts /\
    (forall again, parse_posts soup = Ok again -> again = posts) /\
    map url posts = first_occurrences (map canonical (filter retained soup)) /\
    forall p, In p posts ->
      last_with (url p) (candidates soup) = Some p /\
      exists before a after,
        soup = before ++ a :: after /\
        retained a = true /\
        (forall a', In a' after -> retained a' = true -> canonical a' <> url p) /\
        url p = canonical a /\
        title p = slice_to 200 (get_text a) /\
        blogger_of (canonical a) = Ok (blogger p).
Proof.
  exists (values (dedup (candidates soup))).
  split; [apply parse_posts_candidates|]. split; [|split].
  - intros again H. rewrite parse_posts_candidates in H. now injection H.
  - apply parse_posts_urls.
  - intros p Hp. split; [now apply dedup_last|].
    apply survivor_is_last in Hp as (s1 & a & s2 & Hs & Hc & Hlast).
    apply candidate_Some in Hc as (Hr & Ht & Hu & Hb).
    exists s1, a, s2. rewrite <- Hu. repeat split; assumption.
Qed.

(** C10, as stated, fails: in [hidden_first] the URL that occurs first in
    the document belongs to a link without text, which is skipped, so its
    post comes after the post of the second link. *)
Lemma order_over_all_links_fails : ~ order_over_all_links hidden_first.
Proof.
  intros (posts & Hp & Hord & _).
  vm_compute in Hp. injection Hp as <-.
  vm_compute in Hord. discriminate.
Qed.

Example hidden_first_posts :
  parse_posts hidden_first =
  Ok [ mkPost (lit "B") (lit "https://blog.naver.com/b/2") (lit "b");
       mkPost (lit "A") (lit "https://blog.naver.com/a/1") (lit "a") ].
Proof. vm_compute. reflexivity. Qed.

Example hidden_last_posts :
  parse_posts hidden_last =
  Ok [ mkPost (lit "A") (lit "https://blog.naver.com/a/1") (lit "a") ].
Proof. vm_compute. reflexivity. Qed.

(** C2, as stated, fails: of the two links of [mixed_links], which resolve
    to two distinct canonical URLs, only the one to the blog host becomes a
    post. *)
Lemma dedup_over_all_links_fails : ~ dedup_over_all_links mixed_links.
Proof.
  intros H.
  destruct (H [ lit "https://blog.naver.com/alice/123";
                lit "https://example.com/about" ]) as (posts & Hp & Hlen).
  - repeat constructor; simpl; intuition discriminate.
  - intros u. split.
    + intros [<-|[<-|[]]].
      * eexists. split; [left; reflexivity | reflexivity].
      * eexists. split; [right; left; reflexivity | reflexivity].
    + intros (a & [<-|[<-|[]]] & <-); [now left | now right; left].
  - vm_compute in Hp. injection Hp as <-. discriminate.
Qed.

(** C2, amended. When [us] lists the distinct canonical URLs of the
    retained links (target on the blog host, visible text not empty),
    [parse_posts] returns [length us] posts, one for each of these URLs,
    and each post is the one made from the last retained link with its
    URL. *)
Theorem dedup_within_batch (soup : Html) (us : list str) :
  NoDup us ->
  (forall u, In u us <->
             exists a, In a soup /\ retained a = true /\ canonical a = u) ->
  exists posts,
    parse_posts soup = Ok posts /\
    length posts = length us /\
    NoDup (map url posts) /\
    (forall u, In u us <-> In u (map url posts)) /\
    forall p, In p posts ->
      exists before a after,
        soup = before ++ a :: after /\
        candidate a = Ok (Some p) /\
        forall a', In a' after -> retained a' = true -> canonical a' <> url p.
Proof.
  intros Hnd Hus.
  exists (values (dedup (candidates soup))).
  split; [apply parse_posts_candidates|].
  assert (Hsame : forall u, In u us <-> In u (map url (values (dedup (candidates soup))))).
  { intros u. now rewrite Hus, dedup_urls, first_occurrences_In, retained_urls. }
  assert (Hnd' : NoDup (map url (values (dedup (candidates soup))))).
  { rewrite dedup_urls. apply first_occurrences_NoDup. }
  repeat split; try assumption; try apply Hsame.
  - rewrite <- (length_map url). symmetry. now apply NoDup_same_length.
  - intros p Hp. now apply survivor_is_last.
Qed.

Lemma dedup_within_batch_witness :
  exists posts,
    parse_posts alice_links = Ok posts /\
    length posts = 1%nat /\
    NoDup (map url posts) /\
    (forall u, In u [lit "https://blog.naver.com/alice/123"] <-> In u (map url posts)) /\
    forall p, In p posts ->
      exists before a after,
        alice_links = before ++ a :: after /\
        candidate a = Ok (Some p) /\
        forall a', In a' after -> retained a' = true -> canonical a' <> url p.
Proof.
  apply (dedup_within_batch alice_links [lit "https://blog.naver.com/alice/123"]).
  - repeat constructor. simpl. tauto.
  - intros u. split.
    + intros [<-|[]]. eexists. split; [left; reflexivity | split; reflexivity].
    + intros (a & [<-|[<-|[]]] & _ & <-); now left.
Defined.

(** C3. Stripping the query string of a URL that has none changes nothing,
    stripping twice is stripping once, and [parse_posts] gives the same
    canonical URLs each time it is applied to the same markup; each of them
    is itself left unchanged by the stripping. *)
Theorem canonicalization_idempotent (u : str) (soup : Html) :
  ~ In qmark_char u ->
  strip_query u = Ok u /\
  (forall h, exists c, strip_query h = Ok c /\ strip_query c = Ok c) /\
  exists posts,
    parse_posts soup = Ok posts /\
    (forall again, parse_posts soup = Ok again -> map url again = map url posts) /\
    forall p, In p posts -> strip_query (url p) = Ok (url p).
Proof.
  intros Hclean. split; [|split].
  - rewrite strip_query_before_first. now rewrite before_first_clean.
  - intros h. exists (before_first qmark_char h).
    rewrite !strip_query_before_first. now rewrite before_first_idem.
  - exists (values (dedup (candidates soup))).
    split; [apply parse_posts_candidates|]. split.
    + intros again H. rewrite parse_posts_candidates in H. now injection H as <-.
    + intros p Hin. rewrite strip_query_before_first.
      rewrite before_first_clean; [reflexivity|]. now apply (survivor_clean soup).
Qed.

Lemma canonicalization_idempotent_witness :
  strip_query (lit "https://blog.naver.com/alice/123") =
    Ok (lit "https://blog.naver.com/alice/123") /\
  (forall h, exists c, strip_query h = Ok c /\ strip_query c = Ok c) /\
  exists posts,
    parse_posts alice_links = Ok posts /\
    (forall again, parse_posts alice_links = Ok again -> map url again = map url posts) /\
    forall p, In p posts -> strip_query (url p) = Ok (url p).
Proof.
  apply (canonicalization_idempotent (lit "https://blog.naver.com/alice/123") alice_links).
  vm_compute. intuition discriminate.
Defined.

Lemma marker_absent_canonical (a : Tag) :
  contains marker (href a) = false -> contains marker (canonical a) = false.
Proof.
  intros H. destruct (contains marker (canonical a)) eqn:E; [|reflexivity].
  destruct (before_first_prefix qmark_char (href a)) as [t Ht].
  rewrite Ht in H. unfold canonical in E.
  now rewrite (contains_app_l _ _ t E) in H.
Qed.

(** C5. For a link whose target lacks the marker [blog.naver.com/], the
    loop body does not raise and the post it makes, if any, has an empty
    blogger; [parse_posts] returns, and the post it returns for the link's
    canonical URL (there is one when the link is retained) has an empty
    blogger. *)
Theorem author_fallback (soup : Html) (a : Tag) :
  In a soup ->
  contains marker (href a) = false ->
  (exists c, candidate a = Ok c /\ forall p, c = Some p -> blogger p = []) /\
  exists posts,
    parse_posts soup = Ok posts /\
    (forall p, In p posts -> url p = canonical a -> blogger p = []) /\
    (retained a = true ->
     exists p, In p posts /\ url p = canonical a /\ blogger p = []).
Proof.
  intros Ha Hm.
  assert (Hempty : forall p, blogger_of (url p) = Ok (blogger p) ->
                             url p = canonical a -> blogger p = []).
  { intros p Hb Hu. rewrite Hu in Hb.
    rewrite (blogger_of_absent _ (marker_absent_canonical a Hm)) in Hb.
    now injection Hb. }
  split.
  - destruct (candidate_total a) as [c Hc]. exists c. split; [assumption|].
    intros p ->. apply candidate_Some in Hc as (_ & _ & Hu & Hb). now apply Hempty.
  - exists (values (dedup (candidates soup))).
    split; [apply parse_posts_candidates|].
    assert (Hall : forall p, In p (values (dedup (candidates soup))) ->
                             url p = canonical a -> blogger p = []).
    { intros p Hp Hu. apply survivor_is_last in Hp as (s1 & a0 & s2 & _ & Hc & _).
      apply candidate_Some in Hc as (_ & _ & _ & Hb). now apply Hempty. }
    split; [exact Hall|].
    intros Hr.
    assert (Hin : In (canonical a) (map url (values (dedup (candidates soup))))).
    { rewrite dedup_urls, first_occurrences_In, retained_urls. now exists a. }
    apply in_map_iff in Hin as (p & Hu & Hp).
    exists p. repeat split; [assumption | assumption | now apply Hall].
Qed.

Lemma author_fallback_witness :
  (exists c, candidate (mkTag (lit "https://m.blog.naver.com?id=alice") (lit "Mobile home")) = Ok c /\
             forall p, c = Some p -> blogger p = []) /\
  exists posts,
    parse_posts mobile_links = Ok posts /\
    (forall p, In p posts ->
               url p = canonical (mkTag (lit "https://m.blog.naver.com?id=alice") (lit "Mobile home")) ->
               blogger p = []) /\
    (retained (mkTag (lit "https://m.blog.naver.com?id=alice") (lit "Mobile home")) = true ->
     exists p, In p posts /\
               url p = canonical (mkTag (lit "https://m.blog.naver.com?id=alice") (lit "Mobile home")) /\
               blogger p = []).
Proof.
  apply (author_fallback mobile_links).
  - left. reflexivity.
  - vm_compute. reflexivity.
Defined.

Example parse_posts_mobile :
  parse_posts mobile_links =
  Ok [ mkPost (lit "Mobile home") (lit "https://m.blog.naver.com") [] ].
Proof. vm_compute. reflexivity. Qed.

(** ** Statements and their traces *)

Lemma slice_to_long (n : nat) (s : str) :
  (n < length s)%nat -> length (slice_to n s) = n.
Proof. intros H. unfold slice_to. rewrite length_firstn. lia. Qed.

Lemma slice_to_short (n : nat) (s : str) :
  (length s <= n)%nat -> slice_to n s = s.
Proof. intros H. unfold slice_to. now apply firstn_all2. Qed.

Section Run.

Variable W : Type.
Variable net : Network W.

Local Open Scope prog_scope.

Lemma emits_ret (A : Type) (a : A) (P : event -> Prop) : emits (W := W) (ret a) P.
Proof. intros st. exists []. simpl. now rewrite app_nil_r. Qed.

Lemma emits_raise (A : Type) (e : exn) (P : event -> Prop) :
  emits (W := W) (A := A) (raise e) P.
Proof. intros st. exists []. simpl. now rewrite app_nil_r. Qed.

Lemma emits_lift (A : Type) (r : Outcome A) (P : event -> Prop) :
  emits (W := W) (lift r) P.
Proof. intros st. exists []. simpl. now rewrite app_nil_r. Qed.

Lemma emits_emit (ev : event) (P : event -> Prop) :
  P ev -> emits (W := W) (emit ev) P.
Proof. intros H st. exists [ev]. simpl. split; [reflexivity | now constructor]. Qed.

Lemma emits_call (Q R : Type) (oracle : W -> Q -> W * Outcome R)
    (mk : Q -> Outcome R -> event) (q : Q) (P : event -> Prop) :
  (forall r, P (mk q r)) -> emits (call oracle mk q) P.
Proof.
  intros H st. unfold call. destruct (oracle (world st) q) as [w' r]. simpl.
  exists [mk q r]. split; [reflexivity | now constructor].
Qed.

Lemma emits_utcnow (P : event -> Prop) : emits (utcnow net) P.
Proof.
  intros st. unfold utcnow. destruct (utcnow_isoformat net (world st)) as [w' now].
  exists []. simpl. now rewrite app_nil_r.
Qed.

Lemma emits_bind (A B : Type) (m : Prog W A) (k : A -> Prog W B) (P : event -> Prop) :
  emits m P -> (forall a, emits (k a) P) -> emits (bind m k) P.
Proof.
  intros Hm Hk st. unfold bind.
  destruct (Hm st) as (e1 & H1 & F1).
  destruct (m st) as [[a|e] st1]; simpl in *.
  - destruct (Hk a st1) as (e2 & H2 & F2).
    exists (e1 ++ e2). rewrite H2, H1, app_assoc. split; [reflexivity|].
    apply Forall_app. now split.
  - now exists e1.
Qed.

Lemma emits_try (A : Type) (m : Prog W A) (P : event -> Prop) :
  emits m P -> emits (try m) P.
Proof.
  intros Hm st. unfold try. destruct (Hm st) as (e1 & H1 & F1).
  destruct (m st) as [r st1]. simpl in *. now exists e1.
Qed.

Lemma emits_weaken (A : Type) (m : Prog W A) (P Q : event -> Prop) :
  (forall ev, P ev -> Q ev) -> emits m P -> emits m Q.
Proof.
  intros H Hm st. destruct (Hm st) as (evs & E & F).
  exists evs. split; [assumption|]. revert F. apply Forall_impl. exact H.
Qed.

Lemma posted_other (posts : list Post) (ev : event) :
  is_create ev = false -> posted posts ev.
Proof. intros H pl r ->. discriminate. Qed.

Lemma posted_cons (p : Post) (posts : list Post) (ev : event) :
  posted posts ev -> posted (p :: posts) ev.
Proof.
  intros H pl r E. destruct (H pl r E) as (q & Hq & Hrest).
  exists q. split; [now right | assumption].
Qed.

Lemma notion_page_exists_emits (u : str) (posts : list Post) :
  emits (notion_page_exists net u) (posted posts).
Proof.
  unfold notion_page_exists. apply emits_bind.
  - apply emits_call. intros r. now apply posted_other.
  - intros res. destruct (negb (status_code res =? 200)%Z).
    + apply emits_bind; [apply emits_emit; now apply posted_other|].
      intros _. apply emits_ret.
    + apply emits_bind; [apply emits_lift|]. intros n. apply emits_ret.
Qed.

Lemma create_notion_page_emits (p : Post) (posts : list Post) :
  In p posts ->
  emits (create_notion_page net (title p) (blogger p) (url p)) (posted posts).
Proof.
  intros Hp. unfold create_notion_page.
  apply emits_bind; [apply emits_utcnow|]. intros now.
  apply emits_bind.
  - apply emits_call. intros r pl r' E. injection E as <- _.
    exists p. simpl. auto.
  - intros res. destruct (negb (status_code res =? 200)%Z);
      apply emits_emit; now apply posted_other.
Qed.

Lemma for_posts_emits (posts : list Post) (n : Z) :
  emits (for_posts net posts n) (posted posts).
Proof.
  revert n; induction posts as [|p posts IH]; intros n; simpl.
  - apply emits_ret.
  - apply emits_bind; [apply notion_page_exists_emits|].
    intros known.
    assert (Hrest : forall m, emits (for_posts net posts m) (posted (p :: posts))).
    { intros m. apply (emits_weaken _ _ (posted posts)); [apply posted_cons | apply IH]. }
    destruct known; [apply Hrest|].
    apply emits_bind; [apply create_notion_page_emits; now left|].
    intros _. apply emits_bind; [apply emits_emit; now apply posted_other|].
    intros _. apply Hrest.
Qed.

(** ** One page *)

Lemma fetch_page_run (page : Z) (st : State W) :
  fetch_page net page st =
  let (w', r) := requests_get net (world st) page in
  (match r with
   | Ok resp =>
       if ((400 <=? feed_status resp) && (feed_status resp <? 600))%Z
       then Raise (HTTPError (feed_status resp))
       else Ok (feed_text resp)
   | Raise e => Raise e
   end,
   mkState w' (trace st ++ [EGet page r])).
Proof.
  unfold fetch_page, bind, call, raise_for_status.
  destruct (requests_get net (world st) page) as [w' [resp|e]]; [|reflexivity].
  destruct ((400 <=? feed_status resp) && (feed_status resp <? 600))%Z; reflexivity.
Qed.

Lemma error_status (s : Z) :
  ((400 <=? s) && (s <? 600))%Z = true <-> (400 <= s < 600)%Z.
Proof. rewrite andb_true_iff, Z.leb_le, Z.ltb_lt. tauto. Qed.

Lemma for_page_fetch_failure (page n : Z) (st : State W) (w' : W)
    (r : Outcome FeedResponse) :
  requests_get net (world st) page = (w', r) ->
  fetch_fails r ->
  for_page net page n st =
  (Ok n, mkState w' (trace st ++ [ EPrint (MsgFetchPage page);
                                   EGet page r;
                                   EPrint (MsgPageFetchError (fetch_error r)) ])).
Proof.
  intros Hget Hfail.
  unfold for_page. unfold bind at 1. unfold print at 1, emit at 1.
  unfold bind at 1. unfold try. rewrite fetch_page_run. cbn [world trace].
  rewrite Hget. destruct r as [resp|e]; simpl in Hfail |- *.
  - apply error_status in Hfail. rewrite Hfail.
    unfold bind, print, emit, ret. simpl. now rewrite <- !app_assoc.
  - unfold bind, print, emit, ret. simpl. now rewrite <- !app_assoc.
Qed.

Lemma for_page_fetched (page n : Z) (st : State W) (w' : W) (resp : FeedResponse) :
  requests_get net (world st) page = (w', Ok resp) ->
  ~ (400 <= feed_status resp < 600)%Z ->
  for_page net page n st =
  (posts <~ lift (parse_posts (feed_text resp)) ;;
   match posts with
   | [] => print MsgNoPosts ;;; ret n
   | _ :: _ => m <~ for_posts net posts n ;; sleep 1000 ;;; ret m
   end)
    (mkState w' (trace st ++ [EPrint (MsgFetchPage page); EGet page (Ok resp)])).
Proof.
  intros Hget Hok.
  unfold for_page. unfold bind at 1. unfold print at 1, emit at 1.
  unfold bind at 1. unfold try. rewrite fetch_page_run. cbn [world trace].
  rewrite Hget.
  destruct ((400 <=? feed_status resp) && (feed_status resp <? 600))%Z eqn:E.
  - apply error_status in E. contradiction.
  - now rewrite <- !app_assoc.
Qed.

Lemma posted_created_from (html : Html) (posts : list Post) (ev : event) :
  parse_posts html = Ok posts ->
  posted posts ev ->
  forall pl r, ev = ECreate pl r -> created_from html pl.
Proof.
  intros Hparse Hposted pl r E.
  destruct (Hposted pl r E) as (p & Hp & Hname & _ & Hurl).
  rewrite parse_posts_candidates in Hparse. injection Hparse as <-.
  apply survivor_is_last in Hp as (s1 & a & s2 & -> & Hc & _).
  apply candidate_Some in Hc as (Hr & Ht & Hu & _).
  exists a. rewrite Hname, Hurl, Ht, Hu.
  repeat split; try assumption.
  - apply in_elt.
  - intros H. now apply slice_to_long.
  - intros H. now apply slice_to_short.
Qed.

Lemma page_items_emit (html : Html) (n : Z) :
  emits (W := W)
    (posts <~ lift (parse_posts html) ;;
     match posts with
     | [] => print MsgNoPosts ;;; ret n
     | _ :: _ => m <~ for_posts net posts n ;; sleep 1000 ;;; ret m
     end)
    (fun ev => forall pl r, ev = ECreate pl r -> created_from html pl).
Proof.
  intros st. unfold bind at 1, lift.
  destruct (parse_posts html) as [posts|e] eqn:Hparse.
  - assert (H : emits (W := W)
                  match posts with
                  | [] => print MsgNoPosts ;;; ret n
                  | _ :: _ => m <~ for_posts net posts n ;; sleep 1000 ;;; ret m
                  end
                  (posted posts)).
    { destruct posts as [|p posts].
      - apply emits_bind; [apply emits_emit; now apply posted_other|].
        intros _. apply emits_ret.
      - apply emits_bind; [apply for_posts_emits|].
        intros m. apply emits_bind; [apply emits_emit; now apply posted_other|].
        intros _. apply emits_ret. }
    apply (emits_weaken _ _ _ _ (fun ev => posted_created_from html posts ev Hparse) H).
  - exists []. simpl. now rewrite app_nil_r.
Qed.

Lemma for_page_trace (page n : Z) (st : State W) :
  exists evs,
    trace (snd (for_page net page n st)) = trace st ++ evs /\
    creations_from_feed evs.
Proof.
  destruct (requests_get net (world st) page) as [w' r] eqn:Hget.
  assert (Hfail : fetch_fails r ->
            exists evs, trace (snd (for_page net page n st)) = trace st ++ evs /\
                        creations_from_feed evs).
  { intros Hfail. rewrite (for_page_fetch_failure page n st w' r Hget Hfail).
    eexists. split; [reflexivity|].
    intros pl r' [H|[H|[H|[]]]]; discriminate. }
  destruct r as [resp|e]; [|now apply Hfail].
  destruct (Z_le_dec 400 (feed_status resp)) as [Hlo|Hlo];
    [destruct (Z_lt_dec (feed_status resp) 600) as [Hhi|Hhi]|];
    [apply Hfail; simpl; lia | |].
  all: rewrite (for_page_fetched page n st w' resp Hget) by lia.
  all: destruct (page_items_emit (feed_text resp) n
         (mkState w' (trace st ++ [EPrint (MsgFetchPage page); EGet page (Ok resp)])))
         as (evs & -> & Hall).
  all: exists ([EPrint (MsgFetchPage page); EGet page (Ok resp)] ++ evs).
  all: split; [simpl; now rewrite <- app_assoc|].
  all: intros pl r' [H|[H|H]]; try discriminate.
  all: exists page, resp; split; [right; now left|].
  all: rewrite Forall_forall in Hall; exact (Hall _ H pl r' eq_refl).
Qed.

(** ** All pages *)

Lemma creations_from_feed_app (e1 e2 : list event) :
  creations_from_feed e1 -> creations_from_feed e2 ->
  creations_from_feed (e1 ++ e2).
Proof.
  intros H1 H2 pl r Hin. apply in_app_or in Hin as [Hin|Hin].
  - destruct (H1 pl r Hin) as (page & resp & Hget & Hc).
    exists page, resp. split; [apply in_or_app; now left | assumption].
  - destruct (H2 pl r Hin) as (page & resp & Hget & Hc).
    exists page, resp. split; [apply in_or_app; now right | assumption].
Qed.

Lemma for_pages_trace (pages : list Z) (n : Z) (st : State W) :
  exists evs,
    trace (snd (for_pages net pages n st)) = trace st ++ evs /\
    creations_from_feed evs.
Proof.
  revert n st; induction pages as [|page pages IH]; intros n st; simpl.
  - exists []. split; [now rewrite app_nil_r | intros pl r []].
  - unfold bind. destruct (for_page_trace page n st) as (e1 & H1 & C1).
    destruct (for_page net page n st) as [[m|e] st1]; simpl in H1.
    + destruct (IH m st1) as (e2 & H2 & C2).
      exists (e1 ++ e2). rewrite H2, H1, app_assoc.
      split; [reflexivity | now apply creations_from_feed_app].
    + now exists e1.
Qed.

Lemma for_pages_app (pre post : list Z) (n : Z) (st : State W) :
  for_pages net (pre ++ post) n st =
  (m <~ for_pages net pre n ;; for_pages net post m) st.
Proof.
  revert n st; induction pre as [|page pre IH]; intros n st; simpl.
  - reflexivity.
  - unfold bind. destruct (for_page net page n st) as [[m|e] st1].
    + rewrite IH. reflexivity.
    + reflexivity.
Qed.

(** ** The existence check *)

(** C7. When the existence query is answered with a status other than 200,
    [notion_page_exists] prints the error, raises nothing and returns
    [False]; the loop over the posts goes on to create the record. *)
Theorem existence_query_fail_open (st : State W) (p : Post) (rest : list Post)
    (n : Z) (w' : W) (res : ApiResponse) :
  requests_post_query net (world st) (url p) = (w', Ok res) ->
  status_code res <> 200%Z ->
  let st' := mkState w' (trace st ++ [ EQuery (url p) (Ok res);
                                       EPrint (MsgQueryError (text res)) ]) in
  notion_page_exists net (url p) st = (Ok false, st') /\
  for_posts net (p :: rest) n st =
  (create_notion_page net (title p) (blogger p) (url p) ;;;
   sleep 300 ;;;
   for_posts net rest (n + 1)) st'.
Proof.
  intros Hq Hs st'.
  assert (H : notion_page_exists net (url p) st = (Ok false, st')).
  { unfold notion_page_exists, bind, call. rewrite Hq.
    apply Z.eqb_neq in Hs. rewrite Hs. simpl.
    unfold st'. now rewrite <- app_assoc. }
  split; [exact H|].
  simpl. unfold bind at 1. now rewrite H.
Qed.

Lemma notion_page_exists_known (u : str) (st : State W) :
  store_has net u ->
  exists w' res,
    notion_page_exists net u st =
    (Ok true, mkState w' (trace st ++ [EQuery u (Ok res)])).
Proof.
  intros H. destruct (H (world st)) as (w' & res & n & Hq & Hs & Hr).
  exists w', res. unfold notion_page_exists, bind, call. rewrite Hq.
  rewrite Hs. simpl. unfold lift. rewrite Hr. reflexivity.
Qed.

Lemma for_posts_known (posts : list Post) (n : Z) (st : State W) :
  (forall p, In p posts -> store_has net (url p)) ->
  exists w' evs,
    for_posts net posts n st = (Ok n, mkState w' (trace st ++ evs)) /\
    forallb (fun ev => negb (is_create ev)) evs = true.
Proof.
  revert st; induction posts as [|p posts IH]; intros st Hknown; simpl.
  - exists (world st), []. rewrite app_nil_r. destruct st. split; reflexivity.
  - destruct (notion_page_exists_known (url p) st (Hknown p (or_introl eq_refl)))
      as (w1 & res & Hex).
    unfold bind. rewrite Hex.
    destruct (IH (mkState w1 (trace st ++ [EQuery (url p) (Ok res)])))
      as (w2 & evs & Hrun & Hnone).
    { intros q Hq. apply Hknown. now right. }
    exists w2, (EQuery (url p) (Ok res) :: evs).
    rewrite Hrun. simpl. rewrite <- app_assoc. split; [reflexivity | assumption].
Qed.

Lemma for_page_known (page n : Z) (st : State W) :
  (forall u, in_batch net u -> store_has net u) ->
  exists w' evs,
    for_page net page n st = (Ok n, mkState w' (trace st ++ evs)) /\
    forallb (fun ev => negb (is_create ev)) evs = true.
Proof.
  intros Hknown.
  destruct (requests_get net (world st) page) as [w' r] eqn:Hget.
  assert (Hfail : fetch_fails r ->
            exists w' evs,
              for_page net page n st = (Ok n, mkState w' (trace st ++ evs)) /\
              forallb (fun ev => negb (is_create ev)) evs = true).
  { intros Hfail. rewrite (for_page_fetch_failure page n st w' r Hget Hfail).
    eexists _, _. split; reflexivity. }
  destruct r as [resp|e]; [|now apply Hfail].
  destruct (Z_le_dec 400 (feed_status resp)) as [Hlo|Hlo];
    [destruct (Z_lt_dec (feed_status resp) 600) as [Hhi|Hhi]|];
    [apply Hfail; simpl; lia | |].
  all: rewrite (for_page_fetched page n st w' resp Hget) by lia.
  all: unfold bind at 1, lift.
  all: destruct (parse_posts (feed_text resp)) as [posts|e] eqn:Hparse;
    [|rewrite parse_posts_candidates in Hparse; discriminate].
  all: destruct posts as [|p posts];
    [ exists w', [EPrint (MsgFetchPage page); EGet page (Ok resp); EPrint MsgNoPosts];
      unfold bind, print, emit, ret; simpl; rewrite <- app_assoc; split; reflexivity |].
  all: destruct (for_posts_known (p :: posts) n
         (mkState w' (trace st ++ [EPrint (MsgFetchPage page); EGet page (Ok resp)])))
         as (w2 & evs & Hrun & Hnone);
    [ intros q Hq; apply Hknown;
      exists (world st), page, w', resp, (p :: posts), q; auto |].
  all: exists w2, ([EPrint (MsgFetchPage page); EGet page (Ok resp)] ++ evs ++ [ESleep 1000]).
  all: unfold bind at 1; rewrite Hrun; unfold bind, sleep, emit, ret; simpl.
  all: rewrite <- !app_assoc; split; [reflexivity|].
  all: rewrite forallb_app, Hnone; reflexivity.
Qed.

Lemma for_pages_known (pages : list Z) (n : Z) (st : State W) :
  (forall u, in_batch net u -> store_has net u) ->
  exists w' evs,
    for_pages net pages n st = (Ok n, mkState w' (trace st ++ evs)) /\
    forallb (fun ev => negb (is_create ev)) evs = true.
Proof.
  intros Hknown. revert st; induction pages as [|page pages IH]; intros st; simpl.
  - exists (world st), []. rewrite app_nil_r. destruct st. split; reflexivity.
  - destruct (for_page_known page n st Hknown) as (w1 & e1 & H1 & N1).
    unfold bind. rewrite H1.
    destruct (IH (mkState w1 (trace st ++ e1))) as (w2 & e2 & H2 & N2).
    exists w2, (e1 ++ e2). rewrite H2. simpl. rewrite <- app_assoc.
    split; [reflexivity|]. now rewrite forallb_app, N1, N2.
Qed.


(** ** A page that cannot be fetched *)

(** C8, amended. When the GET of a page raises, or is answered with a
    status from 400 to 599, the page leaves the counter as it was and adds
    to the trace only its three events (the announcement, the request, the
    error message); the pages after it are processed from there, and a run
    whose page range is split around that page ends with the count the
    other pages produce. *)
Theorem fetch_failure_resilience (pre post : list Z) (page n n1 : Z)
    (st st1 : State W) (w' : W) (r : Outcome FeedResponse) :
  for_pages net pre n st = (Ok n1, st1) ->
  requests_get net (world st1) page = (w', r) ->
  fetch_fails r ->
  let st2 := mkState w' (trace st1 ++ [ EPrint (MsgFetchPage page);
                                        EGet page r;
                                        EPrint (MsgPageFetchError (fetch_error r)) ]) in
  for_page net page n1 st1 = (Ok n1, st2) /\
  for_pages net (pre ++ page :: post) n st = for_pages net post n1 st2 /\
  (n = 0%Z -> range 1 (max_page + 1) = pre ++ page :: post ->
   main net st = (m <~ for_pages net post n1 ;; print (MsgDone m)) st2).
Proof.
  intros Hpre Hget Hfail st2.
  pose proof (for_page_fetch_failure page n1 st1 w' r Hget Hfail) as Hpage.
  fold st2 in Hpage.
  assert (Hall : for_pages net (pre ++ page :: post) n st = for_pages net post n1 st2).
  { rewrite for_pages_app. unfold bind at 1. rewrite Hpre. simpl.
    unfold bind at 1. now rewrite Hpage. }
  repeat split; try assumption.
  intros -> Hrange. unfold main. rewrite Hrange.
  unfold bind at 1 2. now rewrite Hall.
Qed.

End Run.

(** ** The sample worlds *)

Example parse_posts_long_title :
  parse_posts [ mkTag (lit "https://blog.naver.com/bob/7?x=1") (repeat 65%N 250) ] =
  Ok [ mkPost (repeat 65%N 200) (lit "https://blog.naver.com/bob/7") (lit "bob") ].
Proof. vm_compute. reflexivity. Qed.

Lemma existence_query_fail_open_witness :
  let p := mkPost (lit "Hello Again") (lit "https://blog.naver.com/alice/123") (lit "alice") in
  let st' := mkState tt [ EQuery (url p) (Ok api_error);
                          EPrint (MsgQueryError (text api_error)) ] in
  notion_page_exists query_error_net (url p) start = (Ok false, st') /\
  for_posts query_error_net [p] 0 start =
  (create_notion_page query_error_net (title p) (blogger p) (url p) ;;;
   sleep 300 ;;;
   for_posts query_error_net [] (0 + 1))%prog st'.
Proof.
  intros p.
  apply (existence_query_fail_open unit query_error_net start p [] 0 tt api_error).
  - reflexivity.
  - discriminate.
Defined.


(** C8, as stated, fails: page 3 of [multiple_choices_net] is answered with
    status 300, [raise_for_status] lets it pass, and the page adds a post
    to the count. *)
Lemma non_2xx_skips_page_fails : ~ non_2xx_skips_page multiple_choices_net.
Proof.
  intros H.
  specialize (H start 3%Z 0%Z tt (mkFeed 300 alice_links) eq_refl).
  simpl in H. assert (Hstatus : ~ (200 <= 300 < 300)%Z) by lia.
  apply H in Hstatus. vm_compute in Hstatus. discriminate.
Qed.

Lemma fetch_failure_resilience_witness :
  let st1 := snd (for_pages timeout_net [1; 2]%Z 0 start) in
  let st2 := mkState tt (trace st1 ++ [ EPrint (MsgFetchPage 3);
                                        EGet 3 (Raise Timeout);
                                        EPrint (MsgPageFetchError Timeout) ]) in
  for_page timeout_net 3 2 st1 = (Ok 2%Z, st2) /\
  for_pages timeout_net ([1; 2] ++ 3 :: [4; 5])%Z 0 start =
    for_pages timeout_net [4; 5]%Z 2 st2 /\
  (0 = 0 -> range 1 (max_page + 1) = ([1; 2] ++ 3 :: [4; 5])%Z ->
   main timeout_net start =
   (m <~ for_pages timeout_net [4; 5]%Z 2 ;; print (MsgDone m))%prog st2)%Z.
Proof.
  intros st1.
  apply (fetch_failure_resilience unit timeout_net [1; 2]%Z [4; 5]%Z 3%Z 0%Z 2%Z
           start st1 tt (Raise Timeout)).
  - vm_compute. reflexivity.
  - reflexivity.
  - exact I.
Defined.

Example timeout_run_counts_other_pages :
  fst (main timeout_net start) = Ok tt /\
  last (trace (snd (main timeout_net start))) (ESleep 0) = EPrint (MsgDone 4).
Proof. vm_compute. split; reflexivity. Qed.

(** C1. In [insert_error_net] the one creation call of the run is answered
    with status 500: the error is printed, nothing is reported as saved and
    the run goes on to the end, yet the final line counts one new post
    saved. *)
Theorem failed_insert_is_counted :
  let run := main insert_error_net start in
  fst run = Ok tt /\
  In (EPrint (MsgInsertError (text api_error))) (trace (snd run)) /\
  filter is_saved (trace (snd run)) = [] /\
  length (filter is_create (trace (snd run))) = 1%nat /\
  last (trace (snd run)) (ESleep 0) = EPrint (MsgDone 1).
Proof.
  vm_compute. repeat split.
  do 4 right. left. reflexivity.
Qed.

(** * Further properties *)

(** ** split *)

Lemma find_sep_before_free (sep s before after : str) :
  find_sep sep s = Some (before, after) -> sep <> [] ->
  contains sep before = false.
Proof.
  intros H Hsep. revert before after H.
  induction s as [|c s IH]; intros before after; simpl.
  - destruct (startswith sep []) eqn:E; [|discriminate].
    intros H. injection H as <- <-. destruct sep; [congruence | reflexivity].
  - destruct (startswith sep (c :: s)) eqn:E.
    + intros H. injection H as <- <-. destruct sep; [congruence | reflexivity].
    + destruct (find_sep sep s) as [[b a]|] eqn:Ef; [|discriminate].
      intros H. injection H as <- <-. simpl.
      rewrite (IH b a eq_refl), orb_false_r.
      destruct (startswith sep (c :: b)) eqn:Eb; [|reflexivity].
      apply startswith_app in Eb as [t Ht].
      apply find_sep_app in Ef.
      assert (Es : startswith sep (c :: s) = true).
      { apply startswith_app. exists (t ++ sep ++ a).
        rewrite Ef. change (c :: b ++ sep ++ a) with ((c :: b) ++ sep ++ a).
        rewrite Ht. now rewrite <- app_assoc. }
      congruence.
Qed.

Lemma find_sep_shorter (sep s before after : str) :
  find_sep sep s = Some (before, after) -> sep <> [] ->
  (length after < length s)%nat.
Proof.
  intros H Hsep. apply find_sep_app in H. subst s.
  rewrite !length_app. destruct sep; [congruence|]. simpl. lia.
Qed.

Lemma contains_empty (sep : str) : sep <> [] -> contains sep [] = false.
Proof. destruct sep; [congruence | reflexivity]. Qed.

Lemma split_fuel_join (fuel : nat) (sep s : str) :
  sep <> [] -> (length s <= fuel)%nat ->
  join sep (split_fuel fuel sep s) = s /\
  Forall (fun piece => contains sep piece = false) (split_fuel fuel sep s).
Proof.
  intros Hsep. revert s; induction fuel as [|fuel IH]; intros s Hlen; simpl.
  - destruct s; [|simpl in Hlen; lia].
    split; [reflexivity|]. constructor; [now apply contains_empty | constructor].
  - destruct (find_sep sep s) as [[b a]|] eqn:E.
    + pose proof (find_sep_shorter _ _ _ _ E Hsep) as Hshort.
      destruct (IH a ltac:(lia)) as [Hjoin Hfree].
      destruct (split_fuel_head fuel sep a) as (x & l & Hx).
      rewrite Hx in *. split.
      * change (join sep (b :: x :: l)) with (b ++ sep ++ join sep (x :: l)).
        rewrite Hjoin. symmetry. now apply find_sep_app.
      * constructor; [now apply (find_sep_before_free sep s b a) | assumption].
    + split; [reflexivity|].
      constructor; [now apply contains_find_sep | constructor].
Qed.

(** X1. [split] cuts at every occurrence of the separator and loses
    nothing: joining the pieces with the separator gives the string back,
    there is at least one piece, and no piece contains the separator. *)
Theorem split_join (sep s : str) (parts : list str) :
  split sep s = Ok parts ->
  join sep parts = s /\
  parts <> [] /\
  Forall (fun piece => contains sep piece = false) parts.
Proof.
  intros H. destruct sep as [|c sep]; [discriminate|].
  simpl in H. injection H as <-.
  destruct (split_fuel_join (length s) (c :: sep) s ltac:(discriminate) (le_n _))
    as [Hjoin Hfree].
  repeat split; try assumption.
  destruct (split_fuel_head (length s) (c :: sep) s) as (x & l & ->). discriminate.
Qed.

Lemma split_join_witness :
  join slash [lit "alice"; lit "123"; []] = lit "alice/123/" /\
  [lit "alice"; lit "123"; []] <> [] /\
  Forall (fun piece => contains slash piece = false) [lit "alice"; lit "123"; []].
Proof.
  apply (split_join slash (lit "alice/123/") [lit "alice"; lit "123"; []]).
  vm_compute. reflexivity.
Defined.

(** ** parse_posts: which links matter *)

Lemma candidates_filter (soup : Html) :
  candidates (filter retained soup) = candidates soup.
Proof.
  induction soup as [|a soup IH]; simpl; [reflexivity|].
  generalize (candidate_retained a). destruct (retained a) eqn:Hr.
  - intros (b & _ & Hc). simpl. now rewrite Hc, IH.
  - intros ->. simpl. assumption.
Qed.

(** X2. The links that are not retained (target off the blog host, or no
    visible text) have no influence on the result: [parse_posts] gives the
    same posts for the markup and for its retained links alone. *)
Theorem parse_posts_filter (soup : Html) :
  parse_posts (filter retained soup) = parse_posts soup.
Proof.
  unfold parse_posts. rewrite !collect_candidates. simpl.
  do 3 f_equal.
  induction soup as [|a soup IH]; simpl; [reflexivity|].
  generalize (candidate_retained a). destruct (retained a) eqn:Hr.
  - intros (b & _ & Hc). simpl. now rewrite Hc, IH.
  - intros ->. simpl. assumption.
Qed.

(** X3. [parse_posts] returns the empty list exactly when the markup has no
    retained link. *)
Theorem parse_posts_empty (soup : Html) :
  parse_posts soup = Ok [] <-> forall a, In a soup -> retained a = false.
Proof.
  rewrite parse_posts_candidates. split.
  - intros H a Ha. injection H as H.
    destruct (retained a) eqn:Hr; [|reflexivity].
    assert (Hin : In (canonical a) (map url (values (dedup (candidates soup))))).
    { rewrite dedup_urls, first_occurrences_In, retained_urls. now exists a. }
    rewrite H in Hin. contradiction.
  - intros H. f_equal.
    assert (Hnone : filter retained soup = []).
    { induction soup as [|a soup IH]; simpl; [reflexivity|].
      rewrite (H a (or_introl eq_refl)). apply IH. intros a' Ha'. apply H. now right. }
    pose proof (parse_posts_urls soup) as Hu. rewrite Hnone in Hu. simpl in Hu.
    now apply map_eq_nil in Hu.
Qed.

Lemma before_first_rest (c : char) (s : str) :
  exists rest, s = before_first c s ++ rest /\
               (rest = [] \/ exists r, rest = c :: r).
Proof.
  induction s as [|x s (rest & IH & Hrest)]; simpl.
  - exists []. auto.
  - destruct (N.eqb x c) eqn:E.
    + apply N.eqb_eq in E. subst x. exists (c :: s). split; [reflexivity|]. right. eauto.
    + exists rest. split; [simpl; now f_equal | assumption].
Qed.

Lemma slice_to_prefix (n : nat) (s : str) : exists rest, s = slice_to n s ++ rest.
Proof. exists (skipn n s). unfold slice_to. now rewrite firstn_skipn. Qed.

(** X4. Every post that [parse_posts] returns comes from a link of the
    markup whose target names the blog host: the link's target is the
    post's URL followed by nothing or by a query string that starts with
    [?], and the post's title is a non-empty prefix of the link's text of at
    most 200 code points. *)
Theorem post_fields (soup : Html) :
  exists posts,
    parse_posts soup = Ok posts /\
    forall p, In p posts ->
      exists a query rest,
        In a soup /\
        contains host (href a) = true /\
        href a = url p ++ query /\
        (query = [] \/ exists q, query = qmark_char :: q) /\
        get_text a = title p ++ rest /\
        (1 <= length (title p) <= 200)%nat.
Proof.
  exists (values (dedup (candidates soup))).
  split; [apply parse_posts_candidates|].
  intros p Hp.
  pose proof (survivor_clean soup p Hp) as [_ Hne].
  apply survivor_is_last in Hp as (s1 & a & s2 & -> & Hc & _).
  apply candidate_Some in Hc as (Hr & Ht & Hu & _).
  destruct (before_first_rest qmark_char (href a)) as (query & Hq & Hquery).
  destruct (slice_to_prefix 200 (get_text a)) as (rest & Hrest).
  exists a, query, rest. rewrite Hu, Ht.
  unfold retained in Hr. apply andb_true_iff in Hr as [Hhost _].
  repeat split; try assumption.
  - apply in_elt.
  - rewrite Ht in Hne. destruct (slice_to 200 (get_text a)); [congruence | simpl; lia].
  - unfold slice_to. rewrite length_firstn. lia.
Qed.

(** ** dedup *)

Lemma dedup_fold_fresh (ps : list Post) (d : list (str * Post)) :
  NoDup (map fst d ++ map url ps) ->
  fold_left (fun unique item => dict_set (url item) item unique) ps d =
  d ++ map (fun p => (url p, p)) ps.
Proof.
  revert d; induction ps as [|p ps IH]; intros d Hnd; simpl.
  - now rewrite app_nil_r.
  - rewrite dict_set_absent.
    + rewrite IH; [now rewrite <- app_assoc|].
      rewrite map_app. simpl. rewrite <- app_assoc. exact Hnd.
    + apply NoDup_remove_2 in Hnd. intros H. apply Hnd. apply in_or_app. now left.
Qed.

(** X5. The second loop changes nothing in a list whose URLs are all
    different, so it is idempotent: applied to its own result it returns
    that result, in the same order. *)
Theorem dedup_fixpoint (ps : list Post) :
  (NoDup (map url ps) -> values (dedup ps) = ps) /\
  values (dedup (values (dedup ps))) = values (dedup ps).
Proof.
  assert (H : forall qs, NoDup (map url qs) -> values (dedup qs) = qs).
  { intros qs Hnd. unfold dedup. rewrite dedup_fold_fresh by exact Hnd.
    unfold values. simpl. rewrite map_map. simpl. apply map_id. }
  split; [apply H|].
  apply H. rewrite dedup_urls. apply first_occurrences_NoDup.
Qed.

(** ** The blogger id *)

Lemma split_fuel_first_prefix (fuel : nat) (sep s first : str) (rest : list str) :
  split_fuel fuel sep s = first :: rest -> exists t, s = first ++ t.
Proof.
  destruct fuel; simpl.
  - intros H. injection H as <- _. exists []. now rewrite app_nil_r.
  - destruct (find_sep sep s) as [[b a]|] eqn:E.
    + intros H. injection H as <- _. apply find_sep_app in E. eauto.
    + intros H. injection H as <- _. exists []. now rewrite app_nil_r.
Qed.

Lemma split_char_first (c : char) (s : str) :
  exists rest, split [c] s = Ok (before_first c s :: rest).
Proof.
  simpl. rewrite <- find_sep_char.
  destruct s as [|x s]; [now exists []|].
  cbn [length split_fuel].
  destruct (find_sep [c] (x :: s)) as [[b a]|]; eauto.
Qed.

Lemma blogger_of_found (u : str) :
  contains marker u = true ->
  exists pre after first rest,
    find_sep marker u = Some (pre, after) /\
    split_fuel (length u - 1) marker after = first :: rest /\
    blogger_of u = Ok (before_first slash_char first).
Proof.
  intros E. unfold blogger_of. rewrite E.
  rewrite (split_ok marker u marker_nonempty).
  destruct (find_sep marker u) as [[pre after]|] eqn:Ef.
  - destruct u as [|x u]; [discriminate|].
    cbn [length split_fuel obind]. rewrite Ef.
    replace (S (length u) - 1)%nat with (length u) by lia.
    destruct (split_fuel_head (length u) marker after) as (first & rest & Hs).
    exists pre, after, first, rest. rewrite Hs.
    repeat split. cbn [getitem nth_error obind].
    change slash with [slash_char].
    destruct (split_char_first slash_char first) as (segs & ->). reflexivity.
  - apply contains_find_sep in Ef. congruence.
Qed.

(** X6. The blogger id that [blogger_of] returns never contains a slash.
    It is empty when the URL lacks the marker [blog.naver.com/]; otherwise
    it is a piece of the URL that stands right after the first occurrence
    of the marker. *)
Theorem blogger_piece (u b : str) :
  blogger_of u = Ok b ->
  ~ In slash_char b /\
  ((contains marker u = false /\ b = []) \/
   exists pre post,
     u = pre ++ marker ++ b ++ post /\ contains marker pre = false).
Proof.
  intros H. destruct (contains marker u) eqn:E.
  - destruct (blogger_of_found u E) as (pre & after & first & rest & Hf & Hs & Hb).
    rewrite Hb in H. injection H as <-.
    split; [apply before_first_free|]. right.
    apply split_fuel_first_prefix in Hs as [t Ht].
    destruct (before_first_prefix slash_char first) as [t' Ht'].
    exists pre, (t' ++ t). split.
    + apply find_sep_app in Hf. rewrite Hf, Ht. rewrite Ht' at 1.
      now rewrite <- app_assoc.
    + apply (find_sep_before_free marker u pre after Hf marker_nonempty).
  - rewrite (blogger_of_absent u E) in H. injection H as <-.
    split; [intros [] | now left].
Qed.

Lemma blogger_piece_witness :
  ~ In slash_char (lit "alice") /\
  ((contains marker (lit "https://blog.naver.com/alice/123") = false /\ lit "alice" = []) \/
   exists pre post,
     lit "https://blog.naver.com/alice/123" = pre ++ marker ++ lit "alice" ++ post /\
     contains marker pre = false).
Proof.
  apply (blogger_piece (lit "https://blog.naver.com/alice/123") (lit "alice")).
  vm_compute. reflexivity.
Defined.

Lemma startswith_app_split (sep p q : str) :
  startswith sep (p ++ q) = true ->
  startswith sep p = true \/ exists t, sep = p ++ t /\ startswith t q = true.
Proof.
  revert p; induction sep as [|x sep IH]; intros p; simpl.
  - intros _. left. now destruct p.
  - destruct p as [|y p]; simpl.
    + intros H. right. exists (x :: sep). split; [reflexivity | exact H].
    + intros H. apply andb_true_iff in H as [Hxy H]. rewrite Hxy. simpl.
      apply N.eqb_eq in Hxy. subst y.
      destruct (IH p H) as [Hp|(t & -> & Ht)]; [now left|].
      right. exists t. split; [reflexivity | assumption].
Qed.

Lemma marker_borderless (p after : str) :
  p <> [] -> startswith marker p = false ->
  startswith marker (p ++ marker ++ after) = false.
Proof.
  intros Hp Hs.
  destruct (startswith marker (p ++ marker ++ after)) eqn:E; [|reflexivity].
  apply startswith_app_split in E as [E|(t & Hm & Ht)]; [congruence|].
  assert (Hne : t <> []).
  { intros ->. rewrite app_nil_r in Hm.
    assert (Hself : startswith marker p = true).
    { apply startswith_app. exists []. now rewrite app_nil_r. }
    congruence. }
  assert (Hlen : (length p + length t = 15)%nat).
  { apply (f_equal (@length char)) in Hm. rewrite length_app in Hm.
    change (length marker) with 15%nat in Hm. lia. }
  assert (Heq : t = skipn (length p) marker).
  { rewrite Hm, skipn_app, skipn_all, Nat.sub_diag. reflexivity. }
  assert (Hpos : (1 <= length p <= 14)%nat).
  { destruct p; [congruence|]. destruct t; [congruence|]. simpl in *. lia. }
  clear Hp Hs Hm Hne Hlen. subst t.
  remember (length p) as n eqn:Hn. clear Hn.
  do 15 (destruct n as [|n]; [try lia; vm_compute in Ht; discriminate|]).
  lia.
Qed.

Lemma find_sep_marker_first (pre after : str) :
  contains marker pre = false ->
  find_sep marker (pre ++ marker ++ after) = Some (pre, after).
Proof.
  induction pre as [|x pre IH]; intros H.
  - reflexivity.
  - simpl in H. apply orb_false_iff in H as [Hs Hc].
    change ((x :: pre) ++ marker ++ after) with (x :: pre ++ marker ++ after).
    cbn [find_sep].
    change (x :: pre ++ marker ++ after) with ((x :: pre) ++ marker ++ after).
    rewrite (marker_borderless (x :: pre) after ltac:(discriminate) Hs).
    cbv iota. now rewrite (IH Hc).
Qed.

Lemma before_first_app (c : char) (x rest : str) :
  ~ In c x -> (rest = [] \/ exists r, rest = c :: r) ->
  before_first c (x ++ rest) = x.
Proof.
  intros Hx Hrest. induction x as [|y x IH]; simpl.
  - destruct Hrest as [->|(r & ->)]; [reflexivity|]. simpl. now rewrite N.eqb_refl.
  - destruct (N.eqb y c) eqn:E.
    + apply N.eqb_eq in E. subst. simpl in Hx. tauto.
    + f_equal. apply IH. simpl in Hx. tauto.
Qed.

Lemma first_char_unique (c : char) (x y r r' : str) :
  ~ In c x -> ~ In c y -> x ++ c :: r = y ++ c :: r' -> x = y.
Proof.
  revert y; induction x as [|a x IH]; intros [|b y] Hx Hy H; simpl in *.
  - reflexivity.
  - injection H as -> _. tauto.
  - injection H as -> _. tauto.
  - injection H as -> H. f_equal. apply (IH y); tauto.
Qed.

Lemma contains_middle (sub pre post : str) :
  contains sub (pre ++ sub ++ post) = true.
Proof.
  induction pre as [|x pre IH]; simpl.
  - assert (H : startswith sub (sub ++ post) = true).
    { apply startswith_app. now exists post. }
    destruct sub; [destruct post; reflexivity|].
    simpl in H |- *. now rewrite H.
  - rewrite IH. apply orb_true_r.
Qed.

Lemma id_before_next_marker (id rest first : str) (more : list str) (fuel : nat) :
  ~ In slash_char id ->
  contains host id = false ->
  (rest = [] \/ exists r, rest = slash_char :: r) ->
  split_fuel (S fuel) marker (id ++ rest) = first :: more ->
  before_first slash_char first = id.
Proof.
  intros Hid Hhost Hrest. cbn [split_fuel].
  destruct (find_sep marker (id ++ rest)) as [[b a]|] eqn:E.
  - intros H. injection H as <- _.
    apply find_sep_app in E.
    apply app_eq_app in E as (l & [[E1 E2]|[E1 E2]]).
    + (* the marker would begin inside the id *)
      exfalso. change marker with (host ++ [slash_char]) in E2.
      rewrite <- app_assoc in E2.
      change ([slash_char] ++ a) with (slash_char :: a) in E2.
      assert (Hl : ~ In slash_char l).
      { intros Hin. apply Hid. rewrite E1. apply in_or_app. now right. }
      destruct Hrest as [->|(r & ->)].
      * rewrite app_nil_r in E2. apply Hl. rewrite <- E2. apply in_elt.
      * assert (Hh : ~ In slash_char host) by (vm_compute; intuition discriminate).
        pose proof (first_char_unique slash_char host l a r Hh Hl E2) as <-.
        rewrite E1 in Hhost.
        pose proof (contains_middle host b []) as Hc.
        rewrite app_nil_r in Hc. congruence.
    + rewrite E1. destruct Hrest as [->|(r & ->)].
      * destruct l; discriminate.
      * destruct l as [|y l].
        -- vm_compute in E2. discriminate.
        -- injection E2 as <- _. apply before_first_app; [assumption | right; eauto].
  - intros H. injection H as <- _. now apply before_first_app.
Qed.

(** X7. For a URL made of a prefix without the marker, the marker
    [blog.naver.com/], an id without slash that does not contain
    [blog.naver.com], and then nothing or a path that starts with a slash,
    [blogger_of] returns the id. *)
Theorem blogger_of_standard (pre id rest : str) :
  contains marker pre = false ->
  ~ In slash_char id ->
  contains host id = false ->
  (rest = [] \/ exists r, rest = slash_char :: r) ->
  blogger_of (pre ++ marker ++ id ++ rest) = Ok id.
Proof.
  intros Hpre Hid Hhost Hrest.
  pose proof (find_sep_marker_first pre (id ++ rest) Hpre) as Hf.
  assert (Hc : contains marker (pre ++ marker ++ id ++ rest) = true).
  { apply contains_middle. }
  destruct (blogger_of_found _ Hc) as (pre' & after & first & more & Hf' & Hs & ->).
  rewrite Hf in Hf'. injection Hf' as <- <-.
  f_equal.
  assert (Hfuel : exists k, (length (pre ++ marker ++ id ++ rest) - 1 = S k)%nat).
  { rewrite !length_app. change (length marker) with 15%nat. eexists.
    replace (length pre + (15 + (length id + length rest)) - 1)%nat
      with (S (length pre + 13 + (length id + length rest))) by lia.
    reflexivity. }
  destruct Hfuel as [k Hk]. rewrite Hk in Hs.
  now apply (id_before_next_marker id rest first more k).
Qed.

Lemma blogger_of_standard_witness :
  blogger_of (lit "https://m." ++ marker ++ lit "alice" ++ lit "/123") = Ok (lit "alice").
Proof.
  apply (blogger_of_standard (lit "https://m.") (lit "alice") (lit "/123")).
  - reflexivity.
  - vm_compute. intuition discriminate.
  - reflexivity.
  - right. eexists. reflexivity.
Defined.

Example blogger_of_repeated_host :
  blogger_of (lit "https://blog.naver.com/m.blog.naver.com/alice") = Ok (lit "m.").
Proof. vm_compute. reflexivity. Qed.

(** ** The Notion calls, step by step *)

Section Calls.

Variable W : Type.
Variable net : Network W.

Local Open Scope prog_scope.

Lemma notion_page_exists_run (u : str) (st : State W) :
  notion_page_exists net u st =
  let (w', r) := requests_post_query net (world st) u in
  match r with
  | Raise e => (Raise e, mkState w' (trace st ++ [EQuery u r]))
  | Ok res =>
      if (status_code res =? 200)%Z
      then (match results_len res with
            | Ok k => Ok (0 <? k)%nat
            | Raise e => Raise e
            end, mkState w' (trace st ++ [EQuery u r]))
      else (Ok false,
            mkState w' (trace st ++ [EQuery u r; EPrint (MsgQueryError (text res))]))
  end.
Proof.
  unfold notion_page_exists, bind, call.
  destruct (requests_post_query net (world st) u) as [w' [res|e]]; [|reflexivity].
  destruct (status_code res =? 200)%Z; simpl.
  - unfold lift. destruct (results_len res); reflexivity.
  - now rewrite <- app_assoc.
Qed.

Lemma create_notion_page_run (p : Post) (st : State W) :
  create_notion_page net (title p) (blogger p) (url p) st =
  let (w1, now) := utcnow_isoformat net (world st) in
  let (w2, r) := requests_post_pages net w1 (payload_of p now) in
  match r with
  | Raise e => (Raise e, mkState w2 (trace st ++ [ECreate (payload_of p now) r]))
  | Ok res =>
      (Ok tt, mkState w2 (trace st ++ [ ECreate (payload_of p now) r;
                                        EPrint (verdict (payload_of p now) res) ]))
  end.
Proof.
  unfold create_notion_page, bind, call, utcnow, payload_of, verdict.
  destruct (utcnow_isoformat net (world st)) as [w1 now]. simpl.
  destruct (requests_post_pages net w1 _) as [w2 [res|e]]; [|reflexivity].
  destruct (status_code res =? 200)%Z; unfold print, emit; simpl;
    now rewrite <- app_assoc.
Qed.

(** The outcomes of one turn of the loop over the posts. *)
Lemma for_posts_step (p : Post) (posts : list Post) (n : Z) (st : State W) :
  (exists q r w', 
      q = [EQuery (url p) r] /\
      ((exists e, for_posts net (p :: posts) n st =
                  (Raise e, mkState w' (trace st ++ q))) \/
       for_posts net (p :: posts) n st =
       for_posts net posts n (mkState w' (trace st ++ q)))) \/
  (exists q now w',
      negative_query (url p) q /\
      ((exists e, for_posts net (p :: posts) n st =
                  (Raise e, mkState w' (trace st ++ q ++
                                        [ECreate (payload_of p now) (Raise e)]))) \/
       (exists res, for_posts net (p :: posts) n st =
                    for_posts net posts (n + 1)
                      (mkState w' (trace st ++ q ++
                                   [ ECreate (payload_of p now) (Ok res);
                                     EPrint (verdict (payload_of p now) res);
                                     ESleep 300 ]))))).
Proof.
  remember (for_posts net (p :: posts) n st) as run eqn:Hrun.
  cbn [for_posts] in Hrun. unfold bind at 1 in Hrun.
  rewrite notion_page_exists_run in Hrun.
  assert (Hcreate : forall w1 q,
    negative_query (url p) q ->
    run = (create_notion_page net (title p) (blogger p) (url p) ;;;
           sleep 300 ;;; for_posts net posts (n + 1))
            (mkState w1 (trace st ++ q)) ->
    exists now w',
      (exists e, run = (Raise e, mkState w' (trace st ++ q ++
                                  [ECreate (payload_of p now) (Raise e)]))) \/
      (exists res, run = for_posts net posts (n + 1)
                           (mkState w' (trace st ++ q ++
                                        [ ECreate (payload_of p now) (Ok res);
                                          EPrint (verdict (payload_of p now) res);
                                          ESleep 300 ])))).
  { intros w1 q _ Hr. unfold bind at 1 in Hr.
    rewrite create_notion_page_run in Hr. cbn [world trace] in Hr.
    destruct (utcnow_isoformat net w1) as [w2 now].
    destruct (requests_post_pages net w2 (payload_of p now)) as [w3 [res'|e]].
    - exists now, w3. right. exists res'. rewrite Hr.
      unfold bind, sleep, emit. cbn [world trace].
      now rewrite <- !app_assoc.
    - exists now, w3. left. exists e. rewrite Hr. now rewrite <- !app_assoc. }
  destruct (requests_post_query net (world st) (url p)) as [w1 [res|e]].
  - destruct (status_code res =? 200)%Z eqn:Hs.
    + destruct (results_len res) as [[|k]|e] eqn:Hr.
      * right.
        assert (Hq : negative_query (url p) [EQuery (url p) (Ok res)]).
        { exists res. left. apply Z.eqb_eq in Hs. auto. }
        destruct (Hcreate w1 _ Hq Hrun) as (now & w' & H).
        now exists [EQuery (url p) (Ok res)], now, w'.
      * left. exists [EQuery (url p) (Ok res)], (Ok res), w1.
        split; [reflexivity|]. right. exact Hrun.
      * left. exists [EQuery (url p) (Ok res)], (Ok res), w1.
        split; [reflexivity|]. left. now exists e.
    + right.
      assert (Hq : negative_query (url p)
                     [EQuery (url p) (Ok res); EPrint (MsgQueryError (text res))]).
      { exists res. right. apply Z.eqb_neq in Hs. auto. }
      destruct (Hcreate w1 _ Hq Hrun) as (now & w' & H).
      now exists [EQuery (url p) (Ok res); EPrint (MsgQueryError (text res))], now, w'.
  - left. exists [EQuery (url p) (Raise e)], (Raise e), w1.
    split; [reflexivity|]. left. now exists e.
Qed.

End Calls.

(** ** The shape of a trace *)

Section Segments.

Variable W : Type.
Variable net : Network W.

(** A property of stretches of the trace that holds of the empty stretch,
    of each event of the page loop, of the events of each post, and of
    every concatenation of stretches that have it. *)
Variable S : list event -> Prop.
Hypothesis S_nil : S [].
Hypothesis S_app : forall e1 e2, S e1 -> S e2 -> S (e1 ++ e2).
Hypothesis S_page : forall ev, page_event ev = true -> S [ev].
Hypothesis S_item : forall p evs, item_events p evs -> S evs.

Local Open Scope prog_scope.

Lemma for_posts_segments (posts : list Post) (n : Z) (st : State W) :
  exists evs,
    trace (snd (for_posts net posts n st)) = trace st ++ evs /\ S evs.
Proof.
  revert n st; induction posts as [|p posts IH]; intros n st.
  - exists []. simpl. now rewrite app_nil_r.
  - destruct (for_posts_step W net p posts n st)
      as [(q & r & w' & -> & [[e ->]| ->])|(q & now & w' & Hq & [[e ->]|[res ->]])].
    + exists [EQuery (url p) r]. split; [reflexivity|]. apply (S_item p). constructor.
    + destruct (IH n (mkState w' (trace st ++ [EQuery (url p) r]))) as (evs & -> & Hs).
      exists ([EQuery (url p) r] ++ evs). cbn [trace]. rewrite <- app_assoc.
      split; [reflexivity|]. apply S_app; [|assumption].
      apply (S_item p). constructor.
    + eexists. split; [reflexivity|]. apply (S_item p). now constructor.
    + destruct (IH (n + 1)%Z
                  (mkState w' (trace st ++ q ++
                               [ ECreate (payload_of p now) (Ok res);
                                 EPrint (verdict (payload_of p now) res);
                                 ESleep 300 ]))) as (evs & -> & Hs).
      eexists. cbn [trace]. rewrite <- app_assoc. split; [reflexivity|].
      apply S_app; [|assumption]. apply (S_item p). now constructor.
Qed.

Lemma for_page_segments (page n : Z) (st : State W) :
  exists evs,
    trace (snd (for_page net page n st)) = trace st ++ evs /\ S evs.
Proof.
  destruct (requests_get net (world st) page) as [w' r] eqn:Hget.
  assert (Hhead : S [EPrint (MsgFetchPage page); EGet page r]).
  { apply (S_app [_] [_]); now apply S_page. }
  assert (Hfail : fetch_fails r ->
            exists evs, trace (snd (for_page net page n st)) = trace st ++ evs /\ S evs).
  { intros Hfail. rewrite (for_page_fetch_failure W net page n st w' r Hget Hfail).
    eexists. split; [reflexivity|].
    apply (S_app [_; _] [_]); [assumption | now apply S_page]. }
  destruct r as [resp|e]; [|now apply Hfail].
  destruct (Z_le_dec 400 (feed_status resp)) as [Hlo|Hlo];
    [destruct (Z_lt_dec (feed_status resp) 600) as [Hhi|Hhi]|];
    [apply Hfail; simpl; lia | |].
  all: rewrite (for_page_fetched W net page n st w' resp Hget) by lia.
  all: unfold bind at 1, lift; rewrite parse_posts_candidates.
  all: destruct (values (dedup (candidates (feed_text resp)))) as [|p posts];
    [ eexists; unfold bind, print, emit, ret; cbn [snd trace];
      rewrite <- app_assoc; split; [reflexivity|];
      apply (S_app [_; _] [_]); [assumption | now apply S_page] |].
  all: destruct (for_posts_segments (p :: posts) n
         (mkState w' (trace st ++ [EPrint (MsgFetchPage page); EGet page (Ok resp)])))
         as (evs & Htr & Hs).
  all: unfold bind at 1.
  all: destruct (for_posts net (p :: posts) n _) as [[m|e] st1];
    cbn [snd trace] in Htr |- *.
  all: try (unfold bind, sleep, emit, ret; cbn [snd trace]; rewrite Htr;
            exists ([EPrint (MsgFetchPage page); EGet page (Ok resp)] ++ evs ++ [ESleep 1000]);
            rewrite <- !app_assoc; split; [reflexivity|];
            apply S_app; [assumption|]; apply S_app; [assumption|];
            now apply S_page).
  all: rewrite Htr;
    exists ([EPrint (MsgFetchPage page); EGet page (Ok resp)] ++ evs);
    rewrite <- !app_assoc; split; [reflexivity|]; now apply S_app.
Qed.

Lemma for_pages_segments (pages : list Z) (n : Z) (st : State W) :
  exists evs,
    trace (snd (for_pages net pages n st)) = trace st ++ evs /\ S evs.
Proof.
  revert n st; induction pages as [|page pages IH]; intros n st; simpl.
  - exists []. now rewrite app_nil_r.
  - unfold bind. destruct (for_page_segments page n st) as (e1 & H1 & S1).
    destruct (for_page net page n st) as [[m|e] st1]; simpl in H1.
    + destruct (IH m st1) as (e2 & H2 & S2).
      exists (e1 ++ e2). rewrite H2, H1, app_assoc. split; [reflexivity|].
      now apply S_app.
    + now exists e1.
Qed.

Lemma main_segments (st : State W) :
  exists evs,
    trace (snd (main net st)) = trace st ++ evs /\ S evs.
Proof.
  unfold main, bind.
  destruct (for_pages_segments (range 1 (max_page + 1)) 0 st) as (evs & Htr & Hs).
  destruct (for_pages net (range 1 (max_page + 1)) 0 st) as [[n|e] st1];
    simpl in Htr |- *.
  - exists (evs ++ [EPrint (MsgDone n)]). rewrite Htr, app_assoc.
    split; [reflexivity|]. apply S_app; [assumption | now apply S_page].
  - now exists evs.
Qed.

End Segments.

Lemma preceded_app (Q : list event -> event -> Prop) (e1 e2 : list event) :
  (forall e l ev, Q l ev -> Q (e ++ l) ev) ->
  (forall pre ev post, e1 = pre ++ ev :: post -> Q pre ev) ->
  (forall pre ev post, e2 = pre ++ ev :: post -> Q pre ev) ->
  forall pre ev post, e1 ++ e2 = pre ++ ev :: post -> Q pre ev.
Proof.
  intros Hext H1 H2 pre ev post H.
  apply app_eq_app in H as (l & [[E1 E2]|[E1 E2]]).
  - destruct l as [|x l].
    + rewrite app_nil_r in E1. subst e1. simpl in E2.
      rewrite <- (app_nil_r pre). apply Hext. apply (H2 [] ev post). now symmetry.
    + injection E2 as <- E2. apply (H1 pre ev l E1).
  - subst pre. apply Hext. now apply (H2 l ev post).
Qed.

Lemma followed_app (Q : list event -> event -> Prop) (e1 e2 : list event) :
  (forall e l ev, Q l ev -> Q (l ++ e) ev) ->
  (forall pre ev post, e1 = pre ++ ev :: post -> Q post ev) ->
  (forall pre ev post, e2 = pre ++ ev :: post -> Q post ev) ->
  forall pre ev post, e1 ++ e2 = pre ++ ev :: post -> Q post ev.
Proof.
  intros Hext H1 H2 pre ev post H.
  apply app_eq_app in H as (l & [[E1 E2]|[E1 E2]]).
  - destruct l as [|x l].
    + simpl in E2. apply (H2 [] ev post). now symmetry.
    + injection E2 as <- E2. subst post. apply Hext. now apply (H1 pre ev l).
  - apply (H2 l ev post E2).
Qed.

Lemma single_split (ev ev' : event) (pre post : list event) :
  [ev] = pre ++ ev' :: post -> pre = [] /\ ev' = ev /\ post = [].
Proof.
  destruct pre as [|x pre]; simpl; intros H.
  - injection H as -> <-. auto.
  - injection H as _ H. destruct pre; discriminate.
Qed.

Section Order.

Variable W : Type.
Variable net : Network W.

(** X8. A creation call is only sent for a URL whose existence check, made
    right before it, ended with [False]: the events just before the call
    are the query for that URL answered with an empty result list, or
    answered with an error status and the error line. *)
Theorem create_after_negative_check (st : State W) :
  exists evs,
    trace (snd (main net st)) = trace st ++ evs /\
    forall pre pl r post,
      evs = pre ++ ECreate pl r :: post -> unknown_before pre (URL pl).
Proof.
  destruct (main_segments W net
              (fun evs => forall pre ev post, evs = pre ++ ev :: post ->
                 forall pl r, ev = ECreate pl r -> unknown_before pre (URL pl)))
    with (st := st) as (evs & Htr & Hs).
  - intros pre ev post H. destruct pre; discriminate.
  - intros e1 e2 H1 H2.
    apply (preceded_app (fun pre ev => forall pl r, ev = ECreate pl r ->
                                       unknown_before pre (URL pl))); try assumption.
    intros e l ev Hq pl r E. destruct (Hq pl r E) as (pre' & q & -> & Hneg).
    exists (e ++ pre'), q. split; [now rewrite app_assoc | assumption].
  - intros ev Hev pre ev' post H pl r ->.
    apply single_split in H as (_ & <- & _). discriminate.
  - intros p evs Hitem pre ev post H pl r ->.
    destruct Hitem as [r0|q now e Hq|q now res Hq].
    + apply single_split in H as (_ & H & _). discriminate.
    + assert (Hpre : pre = q /\ pl = payload_of p now).
      { destruct Hq as (res & [(-> & _)|(-> & _)]); simpl in H.
        - destruct pre as [|x pre]; [discriminate|]. injection H as <- H.
          apply single_split in H as (-> & H & _). injection H as ->. auto.
        - destruct pre as [|x pre]; [discriminate|]. injection H as <- H.
          destruct pre as [|y pre]; [discriminate|]. injection H as <- H.
          apply single_split in H as (-> & H & _). injection H as ->. auto. }
      destruct Hpre as [-> ->]. exists [], q. auto.
    + assert (Hpre : pre = q /\ pl = payload_of p now).
      { destruct Hq as (res0 & [(-> & _)|(-> & _)]); simpl in H.
        - destruct pre as [|x pre]; [discriminate|]. injection H as <- H.
          destruct pre as [|y pre]; [injection H as ->; auto|].
          injection H as _ H.
          destruct pre as [|z pre]; [discriminate|]. injection H as _ H.
          apply single_split in H as (_ & H & _). discriminate.
        - destruct pre as [|x pre]; [discriminate|]. injection H as <- H.
          destruct pre as [|y pre]; [discriminate|]. injection H as <- H.
          destruct pre as [|z pre]; [injection H as ->; auto|].
          injection H as _ H.
          destruct pre as [|z' pre]; [discriminate|]. injection H as _ H.
          apply single_split in H as (_ & H & _). discriminate. }
      destruct Hpre as [-> ->]. exists [], q. auto.
  - exists evs. split; [assumption|].
    intros pre pl r post H. now apply (Hs pre (ECreate pl r) post H pl r).
Qed.

End Order.

(** Where an event can stand among the events of one post. *)
Lemma item_events_split (p : Post) (evs pre post : list event) (ev : event) :
  item_events p evs -> evs = pre ++ ev :: post ->
  (exists r, ev = EQuery (url p) r) \/
  (exists res, ev = EPrint (MsgQueryError (text res))) \/
  (exists q now r,
      negative_query (url p) q /\ pre = q /\
      ev = ECreate (payload_of p now) r /\
      match r with
      | Raise _ => post = []
      | Ok res => post = [EPrint (verdict (payload_of p now) res); ESleep 300]
      end) \/
  (exists q now res,
      negative_query (url p) q /\
      pre = q ++ [ECreate (payload_of p now) (Ok res)] /\
      ev = EPrint (verdict (payload_of p now) res) /\
      post = [ESleep 300]) \/
  ev = ESleep 300.
Proof.
  intros Hitem H. destruct Hitem as [r0|q now e Hq|q now res Hq].
  - apply single_split in H as (_ & -> & _). left. eauto.
  - destruct Hq as (res & [(-> & Hs & Hr)|(-> & Hs)]); simpl in H.
    + destruct pre as [|x pre]; injection H as <- H; [left; eauto|].
      apply single_split in H as (-> & -> & ->).
      right; right; left. exists [EQuery (url p) (Ok res)], now, (Raise e).
      repeat split. exists res. left. auto.
    + destruct pre as [|x pre]; injection H as <- H; [left; eauto|].
      destruct pre as [|y pre]; injection H as <- H; [right; left; eauto|].
      apply single_split in H as (-> & -> & ->).
      right; right; left.
      exists [EQuery (url p) (Ok res); EPrint (MsgQueryError (text res))], now, (Raise e).
      repeat split. exists res. right. auto.
  - assert (Htail : forall pre' post',
              [ ECreate (payload_of p now) (Ok res);
                EPrint (verdict (payload_of p now) res);
                ESleep 300 ] = pre' ++ ev :: post' ->
              (pre' = [] /\ ev = ECreate (payload_of p now) (Ok res) /\
               post' = [EPrint (verdict (payload_of p now) res); ESleep 300]) \/
              (pre' = [ECreate (payload_of p now) (Ok res)] /\
               ev = EPrint (verdict (payload_of p now) res) /\
               post' = [ESleep 300]) \/
              ev = ESleep 300).
    { intros pre' post' H'.
      destruct pre' as [|x pre']; injection H' as <- H'; [left; auto|].
      destruct pre' as [|y pre']; injection H' as <- H'; [right; left; auto|].
      apply single_split in H' as (_ & -> & _). right; right; reflexivity. }
    assert (Hcases : forall pre',
              pre = q ++ pre' ->
              [ ECreate (payload_of p now) (Ok res);
                EPrint (verdict (payload_of p now) res);
                ESleep 300 ] = pre' ++ ev :: post ->
              (exists q0 now0 r,
                  negative_query (url p) q0 /\ pre = q0 /\
                  ev = ECreate (payload_of p now0) r /\
                  match r with
                  | Raise _ => post = []
                  | Ok res0 => post = [EPrint (verdict (payload_of p now0) res0); ESleep 300]
                  end) \/
              (exists q0 now0 res0,
                  negative_query (url p) q0 /\
                  pre = q0 ++ [ECreate (payload_of p now0) (Ok res0)] /\
                  ev = EPrint (verdict (payload_of p now0) res0) /\
                  post = [ESleep 300]) \/
              ev = ESleep 300).
    { intros pre' Hpre H'.
      destruct (Htail pre' post H') as [(-> & -> & ->)|[(-> & -> & ->)| -> ]].
      - left. exists q, now, (Ok res). rewrite app_nil_r in Hpre. auto.
      - right; left. exists q, now, res. auto.
      - right; right. reflexivity. }
    destruct Hq as (res0 & [(Eq & Hs & Hr)|(Eq & Hs)]); rewrite Eq in H; simpl in H.
    + destruct pre as [|x pre]; injection H as <- H; [left; eauto|].
      right; right. apply (Hcases pre); [now rewrite Eq | assumption].
    + destruct pre as [|x pre]; injection H as <- H; [left; eauto|].
      destruct pre as [|y pre]; injection H as <- H; [right; left; eauto|].
      right; right. apply (Hcases pre); [now rewrite Eq | assumption].
Qed.

Lemma page_event_split (ev ev' : event) (pre post : list event) :
  page_event ev = true -> [ev] = pre ++ ev' :: post ->
  page_event ev' = true.
Proof. intros Hev H. apply single_split in H as (_ & -> & _). assumption. Qed.

Section Pace.

Variable W : Type.
Variable net : Network W.

(** X9. Every creation call that is answered is followed at once by the
    line that reports it and by the pause of 0.3 s: the line says "saved",
    with the title and URL sent, when the status is 200, and gives the
    error body otherwise. *)
Theorem create_then_report_and_pause (st : State W) :
  exists evs,
    trace (snd (main net st)) = trace st ++ evs /\
    forall pre pl res post,
      evs = pre ++ ECreate pl (Ok res) :: post ->
      exists post',
        post = EPrint (if (status_code res =? 200)%Z
                       then MsgSaved (Name pl) (URL pl)
                       else MsgInsertError (text res))
               :: ESleep 300 :: post'.
Proof.
  destruct (main_segments W net
              (fun evs => forall pre ev post, evs = pre ++ ev :: post ->
                 forall pl res, ev = ECreate pl (Ok res) ->
                 exists post', post = EPrint (verdict pl res) :: ESleep 300 :: post'))
    with (st := st) as (evs & Htr & Hs).
  - intros pre ev post H. destruct pre; discriminate.
  - intros e1 e2 H1 H2.
    apply (followed_app (fun post ev => forall pl res, ev = ECreate pl (Ok res) ->
             exists post', post = EPrint (verdict pl res) :: ESleep 300 :: post'));
      try assumption.
    intros e l ev Hq pl res E. destruct (Hq pl res E) as (post' & ->).
    exists (post' ++ e). reflexivity.
  - intros ev Hev pre ev' post H pl res ->.
    apply (page_event_split _ _ _ _ Hev) in H. discriminate.
  - intros p evs Hitem pre ev post H pl res ->.
    destruct (item_events_split p evs pre post _ Hitem H)
      as [(r & E)|[(r & E)|[(q & now & r & _ & _ & E & Hpost)|[(q & now & r & _ & _ & E & _)|E]]]];
      try discriminate.
    injection E as -> <-. exists []. assumption.
  - exists evs. split; [assumption|].
    intros pre pl res post H. now apply (Hs pre (ECreate pl (Ok res)) post H pl res).
Qed.

(** X10. The run prints "saved" only for a record the store accepted: the
    event right before such a line is a creation call with the printed
    title and URL that was answered with status 200. *)
Theorem saved_line_is_true (st : State W) :
  exists evs,
    trace (snd (main net st)) = trace st ++ evs /\
    forall pre t u post,
      evs = pre ++ EPrint (MsgSaved t u) :: post ->
      exists pre' pl res,
        pre = pre' ++ [ECreate pl (Ok res)] /\
        Name pl = t /\ URL pl = u /\ status_code res = 200%Z.
Proof.
  destruct (main_segments W net
              (fun evs => forall pre ev post, evs = pre ++ ev :: post ->
                 forall t u, ev = EPrint (MsgSaved t u) ->
                 exists pre' pl res,
                   pre = pre' ++ [ECreate pl (Ok res)] /\
                   Name pl = t /\ URL pl = u /\ status_code res = 200%Z))
    with (st := st) as (evs & Htr & Hs).
  - intros pre ev post H. destruct pre; discriminate.
  - intros e1 e2 H1 H2.
    apply (preceded_app (fun pre ev => forall t u, ev = EPrint (MsgSaved t u) ->
             exists pre' pl res,
               pre = pre' ++ [ECreate pl (Ok res)] /\
               Name pl = t /\ URL pl = u /\ status_code res = 200%Z));
      try assumption.
    intros e l ev Hq t u E. destruct (Hq t u E) as (pre' & pl & res & -> & Hrest).
    exists (e ++ pre'), pl, res. split; [now rewrite app_assoc | assumption].
  - intros ev Hev pre ev' post H t u ->.
    apply (page_event_split _ _ _ _ Hev) in H. discriminate.
  - intros p evs Hitem pre ev post H t u ->.
    destruct (item_events_split p evs pre post _ Hitem H)
      as [(r & E)|[(r & E)|[(q & now & r & _ & _ & E & _)|[(q & now & res & _ & Hpre & E & _)|E]]]];
      try discriminate.
    exists q, (payload_of p now), res. split; [assumption|].
    unfold verdict in E. destruct (status_code res =? 200)%Z eqn:Hst; [|discriminate].
    injection E as Ht Hu. apply Z.eqb_eq in Hst. auto.
  - exists evs. split; [assumption|].
    intros pre t u post H. now apply (Hs pre (EPrint (MsgSaved t u)) post H t u).
Qed.

End Pace.

(** ** The counter *)

Lemma count_app (f : event -> bool) (e1 e2 : list event) :
  count f (e1 ++ e2) = (count f e1 + count f e2)%nat.
Proof. unfold count. now rewrite filter_app, length_app. Qed.

Lemma negative_query_counts (u : str) (q : list event) :
  negative_query u q ->
  count is_create q = 0%nat /\ count is_saved q = 0%nat /\
  count is_insert_error q = 0%nat /\ fetched q = [].
Proof. intros (res & [(-> & _)|(-> & _)]); repeat split. Qed.

Lemma verdict_counts (pl : Payload) (res : ApiResponse) :
  (count is_saved [EPrint (verdict pl res)] +
   count is_insert_error [EPrint (verdict pl res)] = 1)%nat.
Proof. unfold verdict. destruct (status_code res =? 200)%Z; reflexivity. Qed.

Section Counter.

Variable W : Type.
Variable net : Network W.

Local Open Scope prog_scope.

Lemma for_posts_count (posts : list Post) (n : Z) (st : State W) :
  exists evs,
    trace (snd (for_posts net posts n st)) = trace st ++ evs /\
    counted n evs (fst (for_posts net posts n st)).
Proof.
  revert n st; induction posts as [|p posts IH]; intros n st.
  - exists []. simpl. rewrite app_nil_r. split; [reflexivity|].
    intros m H. injection H as <-. split; [cbn; lia | reflexivity].
  - destruct (for_posts_step W net p posts n st)
      as [(q & r & w' & -> & [[e ->]| ->])|(q & now & w' & Hq & [[e ->]|[res ->]])].
    + exists [EQuery (url p) r]. split; [reflexivity|]. intros m H. discriminate.
    + destruct (IH n (mkState w' (trace st ++ [EQuery (url p) r]))) as (evs & -> & Hc).
      exists ([EQuery (url p) r] ++ evs). cbn [trace]. rewrite <- app_assoc.
      split; [reflexivity|]. intros m H. destruct (Hc m H) as [Hm Hb].
      rewrite !count_app. cbn. split; assumption.
    + eexists. split; [reflexivity|]. intros m H. discriminate.
    + destruct (IH (n + 1)%Z
                  (mkState w' (trace st ++ q ++
                               [ ECreate (payload_of p now) (Ok res);
                                 EPrint (verdict (payload_of p now) res);
                                 ESleep 300 ]))) as (evs & -> & Hc).
      eexists. cbn [trace]. rewrite <- app_assoc. split; [reflexivity|].
      intros m H. destruct (Hc m H) as [Hm Hb].
      destruct (negative_query_counts _ _ Hq) as (Hq1 & Hq2 & Hq3 & _).
      pose proof (verdict_counts (payload_of p now) res) as Hv.
      rewrite !count_app, Hq1, Hq2, Hq3.
      change [ ECreate (payload_of p now) (Ok res);
               EPrint (verdict (payload_of p now) res); ESleep 300 ]
        with ([ECreate (payload_of p now) (Ok res)] ++
              [EPrint (verdict (payload_of p now) res)] ++ [ESleep 300]).
      rewrite !count_app.
      assert (Hvc : count is_create [EPrint (verdict (payload_of p now) res)] = 0%nat).
      { unfold verdict. destruct (status_code res =? 200)%Z; reflexivity. }
      rewrite Hvc. cbn. cbn in Hv. split; lia.
Qed.

Lemma for_page_count (page n : Z) (st : State W) :
  exists evs,
    trace (snd (for_page net page n st)) = trace st ++ evs /\
    counted n evs (fst (for_page net page n st)).
Proof.
  destruct (requests_get net (world st) page) as [w' r] eqn:Hget.
  assert (Hfail : fetch_fails r ->
            exists evs, trace (snd (for_page net page n st)) = trace st ++ evs /\
                        counted n evs (fst (for_page net page n st))).
  { intros Hfail. rewrite (for_page_fetch_failure W net page n st w' r Hget Hfail).
    eexists. split; [reflexivity|].
    intros m H. injection H as <-. split; [cbn; lia | reflexivity]. }
  destruct r as [resp|e]; [|now apply Hfail].
  destruct (Z_le_dec 400 (feed_status resp)) as [Hlo|Hlo];
    [destruct (Z_lt_dec (feed_status resp) 600) as [Hhi|Hhi]|];
    [apply Hfail; simpl; lia | |].
  all: rewrite (for_page_fetched W net page n st w' resp Hget) by lia.
  all: unfold bind, lift, print, sleep, emit, ret; rewrite parse_posts_candidates.
  all: destruct (values (dedup (candidates (feed_text resp)))) as [|p posts];
    cbv beta iota;
    [ eexists; cbn [fst snd trace];
      rewrite <- app_assoc; split; [reflexivity|];
      intros m H; injection H as <-; split; [cbn; lia | reflexivity] |].
  all: destruct (for_posts_count (p :: posts) n
         (mkState w' (trace st ++ [EPrint (MsgFetchPage page); EGet page (Ok resp)])))
         as (evs & Htr & Hc).
  all: destruct (for_posts net (p :: posts) n _) as [[m|e] st1];
    cbn [fst snd trace world] in Htr, Hc |- *; rewrite Htr.
  all: try (exists ([EPrint (MsgFetchPage page); EGet page (Ok resp)] ++ evs ++ [ESleep 1000]);
            rewrite <- !app_assoc; split; [reflexivity|];
            intros m' H; injection H as <-;
            destruct (Hc m eq_refl) as [Hm Hb];
            rewrite !count_app; unfold count in *; cbn; split; lia).
  all: exists ([EPrint (MsgFetchPage page); EGet page (Ok resp)] ++ evs);
    rewrite <- !app_assoc; split; [reflexivity|]; intros m' H; discriminate.
Qed.

Lemma for_pages_count (pages : list Z) (n : Z) (st : State W) :
  exists evs,
    trace (snd (for_pages net pages n st)) = trace st ++ evs /\
    counted n evs (fst (for_pages net pages n st)).
Proof.
  revert n st; induction pages as [|page pages IH]; intros n st; simpl.
  - exists []. rewrite app_nil_r. split; [reflexivity|].
    intros m H. injection H as <-. split; [cbn; lia | reflexivity].
  - unfold bind. destruct (for_page_count page n st) as (e1 & H1 & C1).
    destruct (for_page net page n st) as [[m|e] st1]; cbn [fst snd] in H1, C1 |- *.
    + destruct (IH m st1) as (e2 & H2 & C2).
      exists (e1 ++ e2). rewrite H2, H1, app_assoc. split; [reflexivity|].
      intros k Hk. destruct (C1 m eq_refl) as [Hm Hb]. destruct (C2 k Hk) as [Hk' Hb'].
      rewrite !count_app. split; lia.
    + exists e1. split; [assumption|]. intros k Hk. discriminate.
Qed.

(** X11. When a run ends normally, the number in its last line is the
    number of creation calls it sent, and each of these calls was reported
    either as saved or as an insert error: the count is the number of
    "saved" lines plus the number of error lines. *)
Theorem run_accounting (st st' : State W) :
  main net st = (Ok tt, st') ->
  exists evs n,
    trace st' = trace st ++ evs ++ [EPrint (MsgDone n)] /\
    n = Z.of_nat (count is_create evs) /\
    count is_create evs = (count is_saved evs + count is_insert_error evs)%nat.
Proof.
  unfold main, bind.
  destruct (for_pages_count (range 1 (max_page + 1)) 0 st) as (evs & Htr & Hc).
  destruct (for_pages net (range 1 (max_page + 1)) 0 st) as [[n|e] st1];
    cbn [fst snd] in Htr, Hc; [|discriminate].
  unfold print, emit. intros H. injection H as <-. cbn [trace].
  destruct (Hc n eq_refl) as [Hn Hb].
  exists evs, n. rewrite Htr, <- app_assoc. repeat split; [lia | assumption].
Qed.

End Counter.

Lemma run_accounting_witness :
  exists evs n,
    trace (snd (main insert_error_net start)) =
      trace start ++ evs ++ [EPrint (MsgDone n)] /\
    n = Z.of_nat (count is_create evs) /\
    count is_create evs = (count is_saved evs + count is_insert_error evs)%nat.
Proof.
  apply (run_accounting unit insert_error_net start (snd (main insert_error_net start))).
  vm_compute. reflexivity.
Defined.

(** ** Exceptions *)

Section Exceptions.

Variable W : Type.
Variable net : Network W.

Local Open Scope prog_scope.

Lemma for_posts_completes (posts : list Post) (n : Z) (st : State W) :
  notion_answers net -> exists m, fst (for_posts net posts n st) = Ok m.
Proof.
  intros [Hquery Hcreate].
  revert n st; induction posts as [|p posts IH]; intros n st.
  - now exists n.
  - cbn [for_posts]. unfold bind at 1. rewrite notion_page_exists_run.
    destruct (Hquery (world st) (url p)) as (w1 & res & -> & Hjson).
    assert (Hnew : forall st1,
              exists m,
                fst ((create_notion_page net (title p) (blogger p) (url p) ;;;
                      sleep 300 ;;; for_posts net posts (n + 1)) st1) = Ok m).
    { intros st1. unfold bind at 1. rewrite create_notion_page_run.
      destruct (utcnow_isoformat net (world st1)) as [w2 now].
      destruct (Hcreate w2 (payload_of p now)) as (w3 & res' & ->).
      unfold bind at 1, sleep, emit. apply IH. }
    destruct (status_code res =? 200)%Z eqn:Hs.
    + apply Z.eqb_eq in Hs. destruct (Hjson Hs) as [k ->].
      destruct (0 <? k)%nat; [apply IH | apply Hnew].
    + apply Hnew.
Qed.

(** X13. An exception raised by the existence query is not caught: when
    the query for the first post of a page raises, the loop over the pages
    raises that exception right after the query, no further page is
    fetched, and a run that meets this on its first page ends with the
    exception, without its closing line. *)
Theorem query_exception_ends_run (page n : Z) (pages : list Z) (st : State W)
    (w1 w2 : W) (resp : FeedResponse) (p : Post) (posts : list Post) (e : exn) :
  requests_get net (world st) page = (w1, Ok resp) ->
  ~ (400 <= feed_status resp < 600)%Z ->
  parse_posts (feed_text resp) = Ok (p :: posts) ->
  requests_post_query net w1 (url p) = (w2, Raise e) ->
  let st' := mkState w2 (trace st ++ [ EPrint (MsgFetchPage page);
                                       EGet page (Ok resp);
                                       EQuery (url p) (Raise e) ]) in
  for_pages net (page :: pages) n st = (Raise e, st') /\
  (page :: pages = range 1 (max_page + 1) -> n = 0%Z ->
   main net st = (Raise e, st')).
Proof.
  intros Hget Hstatus Hparse Hquery st'.
  assert (Hpage : for_page net page n st = (Raise e, st')).
  { rewrite (for_page_fetched W net page n st w1 resp Hget Hstatus).
    unfold bind at 1, lift. rewrite Hparse.
    unfold bind at 1. cbn [for_posts]. unfold bind at 1.
    rewrite notion_page_exists_run. cbn [world trace]. rewrite Hquery.
    unfold st'. now rewrite <- app_assoc. }
  assert (Hpages : for_pages net (page :: pages) n st = (Raise e, st')).
  { cbn [for_pages]. unfold bind at 1. now rewrite Hpage. }
  split; [assumption|].
  intros Hrange ->. unfold main, bind. now rewrite <- Hrange, Hpages.
Qed.

End Exceptions.

Lemma query_exception_ends_run_witness :
  let p := mkPost (lit "Hello Again") (lit "https://blog.naver.com/alice/123") (lit "alice") in
  let st' := mkState tt [ EPrint (MsgFetchPage 1);
                          EGet 1 (Ok (mkFeed 200 alice_links));
                          EQuery (url p) (Raise Timeout) ] in
  for_pages query_timeout_net [1; 2; 3; 4; 5]%Z 0 start = (Raise Timeout, st') /\
  ([1; 2; 3; 4; 5]%Z = range 1 (max_page + 1) -> 0%Z = 0%Z ->
   main query_timeout_net start = (Raise Timeout, st')).
Proof.
  intros p.
  apply (query_exception_ends_run unit query_timeout_net 1 0 [2; 3; 4; 5]%Z start
           tt tt (mkFeed 200 alice_links) p [] Timeout).
  - reflexivity.
  - simpl. lia.
  - vm_compute. reflexivity.
  - reflexivity.
Defined.

(** ** The pages requested *)

Lemma fetched_app (e1 e2 : list event) :
  fetched (e1 ++ e2) = fetched e1 ++ fetched e2.
Proof. unfold fetched. apply flat_map_app. Qed.

Lemma item_events_fetched (p : Post) (evs : list event) :
  item_events p evs -> fetched evs = [].
Proof.
  intros [r|q now e Hq|q now res Hq]; [reflexivity| |];
    destruct (negative_query_counts _ _ Hq) as (_ & _ & _ & Hf);
    now rewrite fetched_app, Hf.
Qed.

Section Requests.

Variable W : Type.
Variable net : Network W.

Local Open Scope prog_scope.

Lemma for_posts_fetched (posts : list Post) (n : Z) (st : State W) :
  exists evs,
    trace (snd (for_posts net posts n st)) = trace st ++ evs /\ fetched evs = [].
Proof.
  apply (for_posts_segments W net (fun evs => fetched evs = [])).
  - reflexivity.
  - intros e1 e2 H1 H2. now rewrite fetched_app, H1, H2.
  - apply item_events_fetched.
Qed.

Lemma for_page_fetched_once (page n : Z) (st : State W) :
  exists evs,
    trace (snd (for_page net page n st)) = trace st ++ evs /\
    fetched evs = [page].
Proof.
  destruct (requests_get net (world st) page) as [w' r] eqn:Hget.
  assert (Hfail : fetch_fails r ->
            exists evs, trace (snd (for_page net page n st)) = trace st ++ evs /\
                        fetched evs = [page]).
  { intros Hfail. rewrite (for_page_fetch_failure W net page n st w' r Hget Hfail).
    eexists. split; reflexivity. }
  destruct r as [resp|e]; [|now apply Hfail].
  destruct (Z_le_dec 400 (feed_status resp)) as [Hlo|Hlo];
    [destruct (Z_lt_dec (feed_status resp) 600) as [Hhi|Hhi]|];
    [apply Hfail; simpl; lia | |].
  all: rewrite (for_page_fetched W net page n st w' resp Hget) by lia.
  all: unfold bind at 1, lift; rewrite parse_posts_candidates.
  all: destruct (values (dedup (candidates (feed_text resp)))) as [|p posts];
    [ eexists; unfold bind, print, emit, ret; cbn [snd trace];
      rewrite <- app_assoc; split; reflexivity |].
  all: destruct (for_posts_fetched (p :: posts) n
         (mkState w' (trace st ++ [EPrint (MsgFetchPage page); EGet page (Ok resp)])))
         as (evs & Htr & Hf).
  all: unfold bind at 1.
  all: destruct (for_posts net (p :: posts) n _) as [[m|e] st1];
    cbn [snd trace] in Htr |- *.
  all: try (unfold bind, sleep, emit, ret; cbn [snd trace]; rewrite Htr;
            exists ([EPrint (MsgFetchPage page); EGet page (Ok resp)] ++ evs ++ [ESleep 1000]);
            rewrite <- !app_assoc; split; [reflexivity|];
            rewrite !fetched_app, Hf; reflexivity).
  all: rewrite Htr;
    exists ([EPrint (MsgFetchPage page); EGet page (Ok resp)] ++ evs);
    rewrite <- !app_assoc; split; [reflexivity|];
    rewrite fetched_app, Hf; reflexivity.
Qed.

Lemma for_pages_fetched (pages : list Z) (n : Z) (st : State W) :
  exists evs,
    trace (snd (for_pages net pages n st)) = trace st ++ evs /\
    (exists rest, pages = fetched evs ++ rest) /\
    (forall m, fst (for_pages net pages n st) = Ok m -> fetched evs = pages).
Proof.
  revert n st; induction pages as [|page pages IH]; intros n st.
  - exists []. simpl. rewrite app_nil_r. repeat split. now exists [].
  - cbn [for_pages]. unfold bind.
    destruct (for_page_fetched_once page n st) as (e1 & H1 & F1).
    destruct (for_page net page n st) as [[m|e] st1]; cbn [snd] in H1.
    + destruct (IH m st1) as (e2 & H2 & (rest & Hrest) & Hall).
      exists (e1 ++ e2). rewrite H2, H1, app_assoc, fetched_app, F1.
      split; [reflexivity|]. split.
      * exists rest. simpl. now f_equal.
      * intros k Hk. simpl. f_equal. now apply (Hall k).
    + exists e1. cbn [fst snd]. rewrite F1. repeat split; [assumption | |].
      * now exists pages.
      * intros k Hk. discriminate.
Qed.

(** X14. A run asks the feed for the pages 1 to 5 in this order, each at
    most once and none before its predecessor: the pages requested are an
    initial stretch of 1, 2, 3, 4, 5, and all five when the run ends
    normally. No page is requested a second time after a failure. *)
Theorem pages_fetched_in_order (st : State W) :
  exists evs,
    trace (snd (main net st)) = trace st ++ evs /\
    (exists rest, [1; 2; 3; 4; 5]%Z = fetched evs ++ rest) /\
    (fst (main net st) = Ok tt -> fetched evs = [1; 2; 3; 4; 5]%Z).
Proof.
  unfold main, bind.
  destruct (for_pages_fetched (range 1 (max_page + 1)) 0 st)
    as (evs & Htr & (rest & Hrest) & Hall).
  change (range 1 (max_page + 1)) with [1; 2; 3; 4; 5]%Z in *.
  destruct (for_pages net [1; 2; 3; 4; 5]%Z 0 st) as [[n|e] st1];
    cbn [fst snd] in Htr, Hall |- *.
  - exists (evs ++ [EPrint (MsgDone n)]). unfold print, emit. cbn [fst snd trace].
    rewrite Htr, app_assoc, fetched_app. simpl (fetched [_]). rewrite app_nil_r.
    split; [reflexivity|]. split; [now exists rest|].
    intros _. now apply (Hall n).
  - exists evs. split; [assumption|]. split; [now exists rest|].
    intros H. discriminate.
Qed.

(** X15. A page that is fetched but holds no retained link costs three
    events: the announcement, the request and the line that no posts were
    found. No Notion call is made, nothing is paused, and the counter keeps
    its value. *)
Theorem page_without_posts (page n : Z) (st : State W) (w' : W) (resp : FeedResponse) :
  requests_get net (world st) page = (w', Ok resp) ->
  ~ (400 <= feed_status resp < 600)%Z ->
  (forall a, In a (feed_text resp) -> retained a = false) ->
  for_page net page n st =
  (Ok n, mkState w' (trace st ++ [ EPrint (MsgFetchPage page);
                                   EGet page (Ok resp);
                                   EPrint MsgNoPosts ])).
Proof.
  intros Hget Hstatus Hnone.
  rewrite (for_page_fetched W net page n st w' resp Hget Hstatus).
  assert (Hempty : parse_posts (feed_text resp) = Ok []).
  { assert (Hf : filter retained (feed_text resp) = []).
    { induction (feed_text resp) as [|a soup IH]; simpl; [reflexivity|].
      rewrite (Hnone a (or_introl eq_refl)). apply IH.
      intros a' Ha'. apply Hnone. now right. }
    now rewrite parse_posts_candidates, <- candidates_filter, Hf. }
  unfold bind at 1, lift. rewrite Hempty.
  unfold bind, print, emit, ret. cbn [world trace]. now rewrite <- app_assoc.
Qed.

End Requests.

Lemma page_without_posts_witness :
  for_page insert_error_net 2 7 start =
  (Ok 7%Z, mkState tt (trace start ++ [ EPrint (MsgFetchPage 2);
                                        EGet 2 (Ok (mkFeed 200 []));
                                        EPrint MsgNoPosts ])).
Proof.
  apply (page_without_posts unit insert_error_net 2 7 start tt (mkFeed 200 [])).
  - reflexivity.
  - simpl. lia.
  - intros a [].
Defined.

(** ** Running twice against a truthful store *)

Section Twice.

Variable W : Type.
Variable net : Network W.
Variable stored : W -> str -> Prop.
Variable feed : Z -> Outcome FeedResponse.
Hypothesis Hstore : truthful_store net stored feed.

Local Open Scope prog_scope.

Lemma for_posts_stores (posts : list Post) (n : Z) (st : State W) :
  exists m st',
    for_posts net posts n st = (Ok m, st') /\
    (forall v, stored (world st) v -> stored (world st') v) /\
    forall p, In p posts -> stored (world st') (url p).
Proof.
  destruct Hstore as (_ & Hquery & Hcreate & Hclock).
  revert n st; induction posts as [|p posts IH]; intros n st.
  - exists n, st. repeat split; [auto | intros p []].
  - cbn [for_posts]. unfold bind at 1. rewrite notion_page_exists_run.
    destruct (Hquery (world st) (url p)) as (w1 & res & k & -> & Hs & Hr & Hiff & Hm1).
    rewrite Hs, Hr. cbn [Z.eqb Pos.eqb].
    destruct k as [|k]; cbn [Nat.ltb Nat.leb].
    + unfold bind at 1. rewrite create_notion_page_run. cbn [world trace].
      destruct (Hclock w1) as (w2 & now & -> & Hm2).
      destruct (Hcreate w2 (payload_of p now)) as (w3 & res' & -> & Hnew & Hm3).
      unfold bind at 1, sleep, emit. cbn [world trace].
      match goal with
      | |- context [for_posts net posts ?k ?s] =>
          destruct (IH k s) as (m & st' & -> & Hmono & Hall)
      end.
      exists m, st'. cbn [world] in Hmono. repeat split.
      * intros v Hv. auto.
      * intros q [<-|Hq]; [apply Hmono; exact Hnew | now apply Hall].
    + match goal with
      | |- context [for_posts net posts ?k ?s] =>
          destruct (IH k s) as (m & st' & -> & Hmono & Hall)
      end.
      exists m, st'. cbn [world] in Hmono. repeat split.
      * intros v Hv. auto.
      * intros q [<-|Hq]; [|now apply Hall].
        apply Hmono, Hm1, Hiff. lia.
Qed.

Lemma for_posts_stored (posts : list Post) (n : Z) (st : State W) :
  (forall p, In p posts -> stored (world st) (url p)) ->
  exists w' evs,
    for_posts net posts n st = (Ok n, mkState w' (trace st ++ evs)) /\
    (forall v, stored (world st) v -> stored w' v) /\
    forallb (fun ev => negb (is_create ev)) evs = true.
Proof.
  destruct Hstore as (_ & Hquery & _ & _).
  revert st; induction posts as [|p posts IH]; intros st Hin.
  - exists (world st), []. rewrite app_nil_r. destruct st. repeat split; auto.
  - cbn [for_posts]. unfold bind at 1. rewrite notion_page_exists_run.
    destruct (Hquery (world st) (url p)) as (w1 & res & k & -> & Hs & Hr & Hiff & Hm1).
    rewrite Hs, Hr. cbn [Z.eqb Pos.eqb].
    assert (Hk : (0 < k)%nat) by (apply Hiff, Hin; now left).
    destruct k as [|k]; [lia|]. cbn [Nat.ltb Nat.leb].
    destruct (IH (mkState w1 (trace st ++ [EQuery (url p) (Ok res)])))
      as (w2 & evs & -> & Hmono & Hnone).
    { intros q Hq. cbn [world]. apply Hm1, Hin. now right. }
    exists w2, (EQuery (url p) (Ok res) :: evs). cbn [world trace] in *.
    rewrite <- app_assoc. repeat split; [auto | assumption].
Qed.

(** What one turn of the loop over the pages does before it reaches the
    posts: it ends there, with events that hold no creation call, when the
    page brings no post; otherwise it goes on with the posts of the page. *)
Lemma for_page_shape (page n : Z) (st : State W) :
  exists w1 head,
    (forall v, stored (world st) v -> stored w1 v) /\
    forallb (fun ev => negb (is_create ev)) head = true /\
    ((for_page net page n st = (Ok n, mkState w1 (trace st ++ head)) /\
      forall resp posts,
        feed page = Ok resp -> ~ (400 <= feed_status resp < 600)%Z ->
        parse_posts (feed_text resp) = Ok posts -> posts = []) \/
     (exists resp p posts,
        feed page = Ok resp /\
        ~ (400 <= feed_status resp < 600)%Z /\
        parse_posts (feed_text resp) = Ok (p :: posts) /\
        for_page net page n st =
        (m <~ for_posts net (p :: posts) n ;; sleep 1000 ;;; ret m)
          (mkState w1 (trace st ++ head)))).
Proof.
  destruct Hstore as (Hget & _).
  destruct (Hget (world st) page) as (w1 & Hg & Hm1).
  exists w1.
  assert (Hfetched : forall resp,
    feed page = Ok resp -> ~ (400 <= feed_status resp < 600)%Z ->
    exists head,
      (forall v, stored (world st) v -> stored w1 v) /\
      forallb (fun ev => negb (is_create ev)) head = true /\
      ((for_page net page n st = (Ok n, mkState w1 (trace st ++ head)) /\
        forall resp posts,
          feed page = Ok resp -> ~ (400 <= feed_status resp < 600)%Z ->
          parse_posts (feed_text resp) = Ok posts -> posts = []) \/
       (exists resp p posts,
          feed page = Ok resp /\
          ~ (400 <= feed_status resp < 600)%Z /\
          parse_posts (feed_text resp) = Ok (p :: posts) /\
          for_page net page n st =
          (m <~ for_posts net (p :: posts) n ;; sleep 1000 ;;; ret m)
            (mkState w1 (trace st ++ head))))).
  { intros resp Hfeed Hok. rewrite Hfeed in Hg.
    rewrite (for_page_fetched W net page n st w1 resp Hg Hok).
    unfold bind at 1, lift.
    destruct (parse_posts (feed_text resp)) as [[|p posts]|e] eqn:Hparse.
    - exists [EPrint (MsgFetchPage page); EGet page (Ok resp); EPrint MsgNoPosts].
      split; [exact Hm1|]. split; [reflexivity|]. left. split.
      + unfold bind, print, emit, ret. cbn [world trace]. now rewrite <- app_assoc.
      + intros resp' posts E _ Hp. rewrite Hfeed in E. injection E as <-. congruence.
    - exists [EPrint (MsgFetchPage page); EGet page (Ok resp)].
      split; [exact Hm1|]. split; [reflexivity|]. right.
      now exists resp, p, posts.
    - rewrite parse_posts_candidates in Hparse. discriminate. }
  destruct (feed page) as [resp|e] eqn:Hfeed.
  - destruct (Z_le_dec 400 (feed_status resp)) as [Hlo|Hlo];
      [destruct (Z_lt_dec (feed_status resp) 600) as [Hhi|Hhi]|].
    + exists [ EPrint (MsgFetchPage page); EGet page (Ok resp);
               EPrint (MsgPageFetchError (HTTPError (feed_status resp))) ].
      split; [exact Hm1|]. split; [reflexivity|]. left. split.
      * apply (for_page_fetch_failure W net page n st w1 (Ok resp) Hg (conj Hlo Hhi)).
      * intros resp' posts E Hok. injection E as <-. lia.
    + apply (Hfetched resp eq_refl). lia.
    + apply (Hfetched resp eq_refl). lia.
  - exists [ EPrint (MsgFetchPage page); EGet page (Raise e);
             EPrint (MsgPageFetchError e) ].
    split; [exact Hm1|]. split; [reflexivity|]. left. split.
    + apply (for_page_fetch_failure W net page n st w1 (Raise e) Hg I).
    + intros resp posts E. discriminate.
Qed.

Lemma for_page_stores (page n : Z) (st : State W) :
  exists m st',
    for_page net page n st = (Ok m, st') /\
    (forall v, stored (world st) v -> stored (world st') v) /\
    pages_stored stored feed [page] (world st').
Proof.
  destruct (for_page_shape page n st)
    as (w1 & head & Hm1 & _ &
        [[Hrun Hnone]|(resp & p & posts & Hfeed & Hok & Hparse & Hrun)]).
  - exists n, (mkState w1 (trace st ++ head)). repeat split; try assumption.
    intros page' resp posts p [<-|[]] Hfeed Hok Hparse Hp.
    rewrite (Hnone resp posts Hfeed Hok Hparse) in Hp. contradiction.
  - destruct (for_posts_stores (p :: posts) n (mkState w1 (trace st ++ head)))
      as (m & st' & Hposts & Hmono & Hall).
    exists m, (mkState (world st') (trace st' ++ [ESleep 1000])).
    rewrite Hrun. unfold bind at 1. rewrite Hposts.
    unfold bind, sleep, emit, ret. cbn [world trace] in *.
    repeat split; [auto|].
    intros page' resp' posts' q [<-|[]] Hfeed' _ Hparse' Hq.
    rewrite Hfeed in Hfeed'. injection Hfeed' as <-.
    rewrite Hparse in Hparse'. injection Hparse' as <-.
    now apply Hall.
Qed.

Lemma for_page_stored (page n : Z) (st : State W) :
  pages_stored stored feed [page] (world st) ->
  exists w' evs,
    for_page net page n st = (Ok n, mkState w' (trace st ++ evs)) /\
    (forall v, stored (world st) v -> stored w' v) /\
    forallb (fun ev => negb (is_create ev)) evs = true.
Proof.
  intros Hcov.
  destruct (for_page_shape page n st)
    as (w1 & head & Hm1 & Hhead &
        [[Hrun _]|(resp & p & posts & Hfeed & Hok & Hparse & Hrun)]).
  - now exists w1, head.
  - destruct (for_posts_stored (p :: posts) n (mkState w1 (trace st ++ head)))
      as (w2 & evs & Hposts & Hmono & Hnone).
    { intros q Hq. cbn [world]. apply Hm1.
      apply (Hcov page resp (p :: posts) q); auto. now left. }
    exists w2, (head ++ evs ++ [ESleep 1000]).
    rewrite Hrun. unfold bind at 1. rewrite Hposts.
    unfold bind, sleep, emit, ret. cbn [world trace] in *.
    rewrite <- !app_assoc. repeat split; [auto|].
    now rewrite !forallb_app, Hhead, Hnone.
Qed.

Lemma pages_stored_mono (pages : list Z) (w w' : W) :
  (forall v, stored w v -> stored w' v) ->
  pages_stored stored feed pages w -> pages_stored stored feed pages w'.
Proof.
  intros Hmono H page resp posts p Hin Hfeed Hok Hparse Hp.
  apply Hmono. now apply (H page resp posts p).
Qed.

Lemma for_pages_stores (pages : list Z) (n : Z) (st : State W) :
  exists m st',
    for_pages net pages n st = (Ok m, st') /\
    (forall v, stored (world st) v -> stored (world st') v) /\
    pages_stored stored feed pages (world st').
Proof.
  revert n st; induction pages as [|page pages IH]; intros n st.
  - exists n, st. repeat split; [auto|]. intros page resp posts p [].
  - cbn [for_pages]. unfold bind.
    destruct (for_page_stores page n st) as (m & st1 & -> & Hm1 & Hc1).
    destruct (IH m st1) as (k & st2 & -> & Hm2 & Hc2).
    exists k, st2. repeat split; [auto|].
    intros page' resp posts p [<-|Hin] Hfeed Hok Hparse Hp.
    + apply Hm2. apply (Hc1 page resp posts p); auto. now left.
    + now apply (Hc2 page' resp posts p).
Qed.

Lemma for_pages_stored (pages : list Z) (n : Z) (st : State W) :
  pages_stored stored feed pages (world st) ->
  exists w' evs,
    for_pages net pages n st = (Ok n, mkState w' (trace st ++ evs)) /\
    forallb (fun ev => negb (is_create ev)) evs = true.
Proof.
  revert st; induction pages as [|page pages IH]; intros st Hcov.
  - exists (world st), []. rewrite app_nil_r. destruct st. split; reflexivity.
  - cbn [for_pages]. unfold bind.
    destruct (for_page_stored page n st) as (w1 & e1 & -> & Hm1 & N1).
    { intros page' resp posts p [<-|[]]. apply (Hcov page resp posts p). now left. }
    destruct (IH (mkState w1 (trace st ++ e1))) as (w2 & e2 & -> & N2).
    { apply (pages_stored_mono pages (world st) w1 Hm1).
      intros page' resp posts p Hin. apply (Hcov page' resp posts p). now right. }
    exists w2, (e1 ++ e2). cbn [trace]. rewrite <- app_assoc.
    split; [reflexivity|]. now rewrite forallb_app, N1, N2.
Qed.


End Twice.

Lemma list_store_truthful (feed : Z -> Outcome FeedResponse) :
  truthful_store (list_store_net feed) (fun w u => In u w) feed.
Proof.
  repeat split.
  - intros w page. exists w. auto.
  - intros w u. eexists w, _, _. repeat split; simpl; try reflexivity.
    + intros H. apply existsb_eqb_In in H. rewrite H. lia.
    + destruct (existsb (eqb u) w) eqn:E; [|lia].
      intros _. now apply existsb_eqb_In.
    + auto.
  - intros w pl. exists (URL pl :: w), api_created. simpl. auto.
  - intros w. eexists w, _. split; [reflexivity | auto].
Qed.


Example first_run_stores_once :
  fst (main (list_store_net (fun _ => Ok (mkFeed 200 alice_links))) (mkState [] [])) = Ok tt /\
  world (snd (main (list_store_net (fun _ => Ok (mkFeed 200 alice_links))) (mkState [] []))) =
    [lit "https://blog.naver.com/alice/123"].
Proof. vm_compute. split; reflexivity. Qed.

(** ** From a link to its record *)

Lemma last_with_none (u : str) (ps : list Post) :
  (forall q, In q ps -> url q <> u) -> last_with u ps = None.
Proof.
  induction ps as [|p ps IH]; intros H; simpl; [reflexivity|].
  rewrite IH by (intros q Hq; apply H; now right).
  assert (Hp : url p <> u) by (apply H; now left).
  apply eqb_neq in Hp. now rewrite Hp.
Qed.

Lemma last_with_last (u : str) (xs ys : list Post) (p : Post) :
  url p = u -> (forall q, In q ys -> url q <> u) ->
  last_with u (xs ++ p :: ys) = Some p.
Proof.
  intros Hu Hys. induction xs as [|x xs IH]; simpl.
  - rewrite (last_with_none u ys Hys). subst u. now rewrite eqb_refl.
  - now rewrite IH.
Qed.

Lemma dedup_keeps_last (ps : list Post) (p : Post) :
  last_with (url p) ps = Some p -> In p (values (dedup ps)).
Proof.
  intros Hlast.
  destruct (dedup_state_dedup ps) as [Hkeys Hvals].
  assert (Hin : In (url p) (map fst (dedup ps))).
  { rewrite Hkeys, first_occurrences_In.
    destruct (last_with_Some _ _ _ Hlast) as (_ & pre & post & -> & _).
    rewrite map_app. apply in_or_app. right. now left. }
  apply in_map_iff in Hin as ([k v] & Hk & Hkv). simpl in Hk. subst k.
  pose proof (Hvals _ _ Hkv) as Hv. rewrite Hlast in Hv. injection Hv as <-.
  unfold values. apply in_map_iff. now exists (url p, p).
Qed.

Lemma candidates_app (s1 s2 : Html) :
  candidates (s1 ++ s2) = candidates s1 ++ candidates s2.
Proof. unfold candidates. apply flat_map_app. Qed.

(** A retained link after which no retained link has the same canonical
    URL is the link its post is made from. *)
Lemma last_retained_survives (before after : Html) (a : Tag) :
  retained a = true ->
  (forall a', In a' after -> retained a' = true -> canonical a' <> canonical a) ->
  exists p,
    candidate a = Ok (Some p) /\
    In p (values (dedup (candidates (before ++ a :: after)))).
Proof.
  intros Hr Hafter.
  generalize (candidate_retained a). rewrite Hr. intros (b & _ & Hc).
  eexists. split; [exact Hc|].
  apply dedup_keeps_last.
  change (a :: after) with ([a] ++ after). rewrite !candidates_app.
  simpl (candidates [a]). rewrite Hc. simpl.
  apply last_with_last; [reflexivity|].
  intros q Hq. apply in_candidates in Hq as (a' & Ha' & Hq).
  apply candidate_Some in Hq as (Hr' & _ & Hu & _).
  rewrite Hu. now apply Hafter.
Qed.

Section Truncation.

Variable W : Type.
Variable net : Network W.

Local Open Scope prog_scope.

Lemma for_posts_fresh (posts : list Post) (n : Z) (st : State W) :
  fresh_store net ->
  exists m w' evs,
    for_posts net posts n st = (Ok m, mkState w' (trace st ++ evs)) /\
    forall p, In p posts -> exists now r, In (ECreate (payload_of p now) r) evs.
Proof.
  intros [Hquery Hcreate].
  revert n st; induction posts as [|p posts IH]; intros n st.
  - exists n, (world st), []. rewrite app_nil_r. destruct st.
    split; [reflexivity | intros p []].
  - cbn [for_posts]. unfold bind at 1. rewrite notion_page_exists_run.
    destruct (Hquery (world st) (url p)) as (w1 & res & -> & Hneg).
    assert (Hnew : forall q,
      exists m w' evs,
        (create_notion_page net (title p) (blogger p) (url p) ;;;
         sleep 300 ;;; for_posts net posts (n + 1))
          (mkState w1 (trace st ++ q)) =
        (Ok m, mkState w' (trace st ++ q ++ evs)) /\
        forall p0, In p0 (p :: posts) ->
                   exists now r, In (ECreate (payload_of p0 now) r) evs).
    { intros q. unfold bind at 1. rewrite create_notion_page_run. cbn [world trace].
      destruct (utcnow_isoformat net w1) as [w2 now].
      destruct (Hcreate w2 (payload_of p now)) as (w3 & res' & ->).
      unfold bind at 1, sleep, emit. cbn [world trace].
      match goal with
      | |- context [for_posts net posts ?k ?s] =>
          destruct (IH k s) as (m & w' & evs & -> & Hall)
      end.
      exists m, w',
        ([ ECreate (payload_of p now) (Ok res');
           EPrint (verdict (payload_of p now) res'); ESleep 300 ] ++ evs).
      cbn [trace]. split.
      - rewrite <- !app_assoc. reflexivity.
      - intros p0 [<-|Hp0].
        + exists now, (Ok res'). now left.
        + destruct (Hall p0 Hp0) as (now0 & r0 & Hin).
          exists now0, r0. apply in_or_app. now right. }
    destruct (status_code res =? 200)%Z eqn:Hs.
    + destruct Hneg as [Hneg| ->]; [apply Z.eqb_eq in Hs; contradiction|].
      cbn [Nat.ltb Nat.leb].
      destruct (Hnew [EQuery (url p) (Ok res)]) as (m & w' & evs & Hrun & Hall).
      exists m, w', ([EQuery (url p) (Ok res)] ++ evs). split; [exact Hrun|].
      intros p0 Hp0. destruct (Hall p0 Hp0) as (now0 & r0 & Hin).
      exists now0, r0. apply in_or_app. now right.
    + destruct (Hnew [EQuery (url p) (Ok res); EPrint (MsgQueryError (text res))])
        as (m & w' & evs & Hrun & Hall).
      exists m, w', ([EQuery (url p) (Ok res); EPrint (MsgQueryError (text res))] ++ evs).
      split; [exact Hrun|].
      intros p0 Hp0. destruct (Hall p0 Hp0) as (now0 & r0 & Hin).
      exists now0, r0. apply in_or_app. now right.
Qed.

(** C4. Backwards: in every creation call of a run, the record is made
    from a retained link of a page fetched in that run, and its title is
    the link's text cut after 200 code points, exactly 200 long when the
    text is longer and the text itself otherwise; the loop body builds each
    post's title in the same way. Forwards: every retained link gives a
    candidate with the title so cut; a retained link that no later retained
    link of the markup shares its canonical URL with gives a post of
    [parse_posts] with that title; and when such a link stands on a page
    that is fetched while the store knows no URL and accepts every record,
    a creation call is sent whose record has that title. *)
Theorem title_truncation (st : State W) :
  (exists evs,
     trace (snd (main net st)) = trace st ++ evs /\
     forall pl r, In (ECreate pl r) evs ->
       exists page resp a,
         In (EGet page (Ok resp)) evs /\
         In a (feed_text resp) /\
         retained a = true /\
         URL pl = canonical a /\
         Name pl = slice_to 200 (get_text a) /\
         (200 < length (get_text a) -> length (Name pl) = 200)%nat /\
         (length (get_text a) <= 200 -> Name pl = get_text a)%nat) /\
  (forall a p, candidate a = Ok (Some p) ->
     title p = slice_to 200 (get_text a) /\
     (200 < length (get_text a) -> length (title p) = 200)%nat /\
     (length (get_text a) <= 200 -> title p = get_text a)%nat) /\
  (forall a, retained a = true ->
     exists p,
       candidate a = Ok (Some p) /\
       url p = canonical a /\
       title p = slice_to 200 (get_text a) /\
       (200 < length (get_text a) -> length (title p) = 200)%nat /\
       (length (get_text a) <= 200 -> title p = get_text a)%nat) /\
  (forall before a after,
     retained a = true ->
     (forall a', In a' after -> retained a' = true -> canonical a' <> canonical a) ->
     exists posts p,
       parse_posts (before ++ a :: after) = Ok posts /\
       In p posts /\
       url p = canonical a /\
       title p = slice_to 200 (get_text a) /\
       (200 < length (get_text a) -> length (title p) = 200)%nat /\
       (length (get_text a) <= 200 -> title p = get_text a)%nat) /\
  (forall page n w' resp before a after,
     requests_get net (world st) page = (w', Ok resp) ->
     ~ (400 <= feed_status resp < 600)%Z ->
     feed_text resp = before ++ a :: after ->
     retained a = true ->
     (forall a', In a' after -> retained a' = true -> canonical a' <> canonical a) ->
     fresh_store net ->
     exists pl r,
       In (ECreate pl r) (trace (snd (for_page net page n st))) /\
       URL pl = canonical a /\
       Name pl = slice_to 200 (get_text a) /\
       (200 < length (get_text a) -> length (Name pl) = 200)%nat /\
       (length (get_text a) <= 200 -> Name pl = get_text a)%nat).
Proof.
  assert (Hcut : forall t : str,
            (200 < length t -> length (slice_to 200 t) = 200)%nat /\
            (length t <= 200 -> slice_to 200 t = t)%nat).
  { intros t. split; [apply slice_to_long | apply slice_to_short]. }
  assert (Hforward : forall before a after,
    retained a = true ->
    (forall a', In a' after -> retained a' = true -> canonical a' <> canonical a) ->
    exists p,
      In p (values (dedup (candidates (before ++ a :: after)))) /\
      url p = canonical a /\ title p = slice_to 200 (get_text a)).
  { intros before a after Hr Hafter.
    destruct (last_retained_survives before after a Hr Hafter) as (p & Hc & Hp).
    apply candidate_Some in Hc as (_ & Ht & Hu & _). now exists p. }
  split; [|split; [|split; [|split]]].
  - unfold main, bind.
    destruct (for_pages_trace W net (range 1 (max_page + 1)) 0 st) as (evs & Htr & Hc).
    destruct (for_pages net (range 1 (max_page + 1)) 0 st) as [[n|e] st1];
      simpl in Htr |- *.
    + exists (evs ++ [EPrint (MsgDone n)]). rewrite Htr, app_assoc.
      split; [reflexivity|].
      intros pl r Hin. apply in_app_or in Hin as [Hin|[Hin|[]]]; [|discriminate].
      destruct (Hc pl r Hin) as (page & resp & Hget & a & Ha).
      exists page, resp, a. split; [apply in_or_app; now left | exact Ha].
    + exists evs. split; [assumption|].
      intros pl r Hin. destruct (Hc pl r Hin) as (page & resp & Hget & a & Ha).
      exists page, resp, a. split; assumption.
  - intros a p Hc. apply candidate_Some in Hc as (_ & Ht & _).
    rewrite Ht. split; [reflexivity | apply Hcut].
  - intros a Hr. generalize (candidate_retained a). rewrite Hr.
    intros (b & _ & Hc). eexists. split; [exact Hc|]. simpl.
    split; [reflexivity|]. split; [reflexivity | apply Hcut].
  - intros before a after Hr Hafter.
    destruct (Hforward before a after Hr Hafter) as (p & Hp & Hu & Ht).
    exists (values (dedup (candidates (before ++ a :: after)))), p.
    split; [apply parse_posts_candidates|]. split; [assumption|].
    split; [assumption|]. rewrite Ht. split; [reflexivity | apply Hcut].
  - intros page n w' resp before a after Hget Hok Hsoup Hr Hafter Hfresh.
    destruct (Hforward before a after Hr Hafter) as (p & Hp & Hu & Ht).
    rewrite (for_page_fetched W net page n st w' resp Hget Hok).
    unfold bind at 1, lift. rewrite parse_posts_candidates, Hsoup.
    destruct (values (dedup (candidates (before ++ a :: after)))) as [|p0 posts] eqn:E;
      [contradiction|].
    destruct (for_posts_fresh (p0 :: posts) n
                (mkState w' (trace st ++ [EPrint (MsgFetchPage page); EGet page (Ok resp)]))
                Hfresh) as (m & w2 & evs & Hrun & Hall).
    destruct (Hall p Hp) as (now & r & Hin).
    exists (payload_of p now), r. unfold bind at 1. rewrite Hrun.
    unfold bind, sleep, emit, ret. cbn [snd world trace].
    split.
    + apply in_or_app. left. apply in_or_app. now right.
    + simpl. split; [assumption|]. rewrite Ht. split; [reflexivity | apply Hcut].
Qed.

End Truncation.

Lemma title_truncation_witness :
  exists pl r,
    In (ECreate pl r) (trace (snd (for_page long_title_net 1 0 start))) /\
    URL pl = lit "https://blog.naver.com/bob/7" /\
    Name pl = repeat 65%N 200 /\
    length (Name pl) = 200%nat.
Proof.
  destruct (title_truncation unit long_title_net start) as (_ & _ & _ & _ & Hrun).
  destruct (Hrun 1%Z 0%Z tt
              (mkFeed 200 [mkTag (lit "https://blog.naver.com/bob/7?x=1") (repeat 65%N 250)])
              [] (mkTag (lit "https://blog.naver.com/bob/7?x=1") (repeat 65%N 250)) [])
    as (pl & r & Hin & Hu & Hn & Hlong & _).
  - reflexivity.
  - simpl. lia.
  - reflexivity.
  - vm_compute. reflexivity.
  - intros a' [].
  - split.
    + intros w u. exists w, api_no_match. split; [reflexivity | now right].
    + intros w pl. now exists w, api_created.
  - exists pl, r. split; [exact Hin|]. split; [exact Hu|]. split; [exact Hn|].
    apply Hlong. vm_compute. lia.
Defined.

(** ** The parser in the run *)

Section Parser.

Variable W : Type.
Variable net : Network W.
Variable requests_get_text : W -> Z -> W * Outcome TextResponse.
Variable BeautifulSoup_a_href : str -> Outcome Html.

Local Open Scope prog_scope.

Local Notation "'page_text'" :=
  (for_page_text net requests_get_text BeautifulSoup_a_href).
Local Notation "'pages_text'" :=
  (for_pages_text net requests_get_text BeautifulSoup_a_href).
Local Notation "'run_text'" :=
  (main_text net requests_get_text BeautifulSoup_a_href).

Lemma fetch_page_text_run (page : Z) (st : State W) :
  fetch_page_text requests_get_text page st =
  let (w', r) := requests_get_text (world st) page in
  (match r with
   | Ok resp =>
       if ((400 <=? text_status resp) && (text_status resp <? 600))%Z
       then Raise (HTTPError (text_status resp))
       else Ok (text_body resp)
   | Raise e => Raise e
   end,
   mkState w' (trace st ++ [EGetText page r])).
Proof.
  unfold fetch_page_text, bind, call, raise_for_status_text.
  destruct (requests_get_text (world st) page) as [w' [resp|e]]; [|reflexivity].
  destruct ((400 <=? text_status resp) && (text_status resp <? 600))%Z; reflexivity.
Qed.

(** A page that cannot be fetched is skipped, as in the run on anchors. *)
Lemma for_page_text_fetch_failure (page n : Z) (st : State W) (w' : W)
    (r : Outcome TextResponse) :
  requests_get_text (world st) page = (w', r) ->
  match r with
  | Raise _ => True
  | Ok resp => (400 <= text_status resp < 600)%Z
  end ->
  page_text page n st =
  (Ok n, mkState w' (trace st ++
           [ EPrint (MsgFetchPage page);
             EGetText page r;
             EPrint (MsgPageFetchError
                       match r with
                       | Raise e => e
                       | Ok resp => HTTPError (text_status resp)
                       end) ])).
Proof.
  intros Hget Hfail.
  unfold for_page_text. unfold bind at 1. unfold print at 1, emit at 1.
  unfold bind at 1. unfold try. rewrite fetch_page_text_run. cbn [world trace].
  rewrite Hget. destruct r as [resp|e].
  - apply error_status in Hfail. rewrite Hfail.
    unfold bind, print, emit, ret. simpl. now rewrite <- !app_assoc.
  - unfold bind, print, emit, ret. simpl. now rewrite <- !app_assoc.
Qed.

(** A page that is fetched goes to the parser, outside the [try]. *)
Lemma for_page_text_fetched (page n : Z) (st : State W) (w' : W) (resp : TextResponse) :
  requests_get_text (world st) page = (w', Ok resp) ->
  ~ (400 <= text_status resp < 600)%Z ->
  page_text page n st =
  (posts <~ lift (parse_posts_text BeautifulSoup_a_href (text_body resp)) ;;
   match posts with
   | [] => print MsgNoPosts ;;; ret n
   | _ :: _ => m <~ for_posts net posts n ;; sleep 1000 ;;; ret m
   end)
    (mkState w' (trace st ++ [EPrint (MsgFetchPage page); EGetText page (Ok resp)])).
Proof.
  intros Hget Hok.
  unfold for_page_text. unfold bind at 1. unfold print at 1, emit at 1.
  unfold bind at 1. unfold try. rewrite fetch_page_text_run. cbn [world trace].
  rewrite Hget.
  destruct ((400 <=? text_status resp) && (text_status resp <? 600))%Z eqn:E.
  - apply error_status in E. contradiction.
  - now rewrite <- !app_assoc.
Qed.

Lemma for_page_text_completes (page n : Z) (st : State W) :
  notion_answers net ->
  (forall w' resp,
      requests_get_text (world st) page = (w', Ok resp) ->
      ~ (400 <= text_status resp < 600)%Z ->
      exists soup, BeautifulSoup_a_href (text_body resp) = Ok soup) ->
  exists m, fst (page_text page n st) = Ok m.
Proof.
  intros Hnotion Hparser.
  destruct (requests_get_text (world st) page) as [w' r] eqn:Hget.
  assert (Hfail : match r with
                  | Raise _ => True
                  | Ok resp => (400 <= text_status resp < 600)%Z
                  end -> exists m, fst (page_text page n st) = Ok m).
  { intros Hfail.
    rewrite (for_page_text_fetch_failure page n st w' r Hget Hfail).
    now exists n. }
  destruct r as [resp|e]; [|now apply Hfail].
  destruct (Z_le_dec 400 (text_status resp)) as [Hlo|Hlo];
    [destruct (Z_lt_dec (text_status resp) 600) as [Hhi|Hhi]|];
    [apply Hfail; lia | |].
  all: rewrite (for_page_text_fetched page n st w' resp Hget) by lia.
  all: destruct (Hparser w' resp eq_refl ltac:(lia)) as (soup & Hsoup).
  all: unfold bind at 1, lift, parse_posts_text; rewrite Hsoup; cbn [obind];
    rewrite parse_posts_candidates.
  all: destruct (values (dedup (candidates soup))) as [|p posts]; [now exists n|].
  all: unfold bind at 1.
  all: destruct (for_posts_completes W net (p :: posts) n
         (mkState w' (trace st ++ [EPrint (MsgFetchPage page); EGetText page (Ok resp)]))
         Hnotion) as (m & Hm).
  all: destruct (for_posts net (p :: posts) n _) as [[m'|e] st1];
    [now exists m' | discriminate].
Qed.

Lemma for_pages_text_completes (pages : list Z) (n : Z) (st : State W) :
  notion_answers net ->
  (forall w page w' resp,
      requests_get_text w page = (w', Ok resp) ->
      ~ (400 <= text_status resp < 600)%Z ->
      exists soup, BeautifulSoup_a_href (text_body resp) = Ok soup) ->
  exists m, fst (pages_text pages n st) = Ok m.
Proof.
  intros Hnotion Hparser.
  revert n st; induction pages as [|page pages IH]; intros n st; simpl.
  - now exists n.
  - unfold bind.
    destruct (for_page_text_completes page n st Hnotion (Hparser (world st) page))
      as (m & Hm).
    destruct (page_text page n st) as [[m'|e] st1]; [apply IH | discriminate].
Qed.

(** X12. With the parser in the run: a run ends normally, and its last
    event is the closing line, as long as the two Notion endpoints answer,
    a 200 answer to the query can be read, and the parser accepts the body
    of every page that is fetched. Transport errors, error statuses and
    pages without links do not end the run. *)
Theorem run_completes (st : State W) :
  notion_answers net ->
  (forall w page w' resp,
      requests_get_text w page = (w', Ok resp) ->
      ~ (400 <= text_status resp < 600)%Z ->
      exists soup, BeautifulSoup_a_href (text_body resp) = Ok soup) ->
  fst (run_text st) = Ok tt /\
  exists n, last (trace (snd (run_text st))) (ESleep 0) = EPrint (MsgDone n).
Proof.
  intros Hnotion Hparser. unfold main_text, bind.
  destruct (for_pages_text_completes (range 1 (max_page + 1)) 0 st Hnotion Hparser)
    as (m & Hm).
  destruct (pages_text (range 1 (max_page + 1)) 0 st) as [[n|e] st1];
    [|discriminate].
  split; [reflexivity|]. exists n. unfold print, emit. cbn [snd trace].
  apply last_last.
Qed.

(** X17. The parser stands outside the [try]: when the body of a fetched
    page is markup the parser rejects, the loop over the pages raises the
    parser's exception right after the request, no further page is fetched
    and no Notion call is made; a run that meets this on its first page
    ends with the exception, without its closing line. *)
Theorem parser_rejection_ends_run (page n : Z) (pages : list Z) (st : State W)
    (w' : W) (resp : TextResponse) (e : exn) :
  requests_get_text (world st) page = (w', Ok resp) ->
  ~ (400 <= text_status resp < 600)%Z ->
  BeautifulSoup_a_href (text_body resp) = Raise e ->
  let st' := mkState w' (trace st ++ [ EPrint (MsgFetchPage page);
                                       EGetText page (Ok resp) ]) in
  pages_text (page :: pages) n st = (Raise e, st') /\
  (page :: pages = range 1 (max_page + 1) -> n = 0%Z ->
   run_text st = (Raise e, st')).
Proof.
  intros Hget Hok Hsoup st'.
  assert (Hpage : page_text page n st = (Raise e, st')).
  { rewrite (for_page_text_fetched page n st w' resp Hget Hok).
    unfold bind at 1, lift, parse_posts_text. now rewrite Hsoup. }
  assert (Hpages : pages_text (page :: pages) n st = (Raise e, st')).
  { cbn [for_pages_text]. unfold bind at 1. now rewrite Hpage. }
  split; [assumption|].
  intros Hrange ->. unfold main_text, bind. now rewrite <- Hrange, Hpages.
Qed.

End Parser.

Lemma run_completes_witness :
  fst (main_text timeout_net timeout_text_feed sample_soup start) = Ok tt /\
  exists n,
    last (trace (snd (main_text timeout_net timeout_text_feed sample_soup start)))
         (ESleep 0) = EPrint (MsgDone n).
Proof.
  apply (run_completes unit timeout_net timeout_text_feed sample_soup start).
  - split.
    + intros w u. exists w, api_no_match. split; [reflexivity|].
      intros _. now exists 0%nat.
    + intros w pl. now exists w, api_created.
  - intros w page w' resp H _. unfold timeout_text_feed in H.
    destruct (page =? 3)%Z; [discriminate H|].
    injection H as _ <-. now exists alice_links.
Defined.

Lemma parser_rejection_ends_run_witness :
  let st' := mkState tt [ EPrint (MsgFetchPage 1);
                          EGetText 1 (Ok (mkText 200 (lit "<![x]>"))) ] in
  for_pages_text timeout_net rejected_text_feed sample_soup [1; 2; 3; 4; 5]%Z 0 start =
    (Raise ParserRejectedMarkup, st') /\
  ([1; 2; 3; 4; 5]%Z = range 1 (max_page + 1) -> 0%Z = 0%Z ->
   main_text timeout_net rejected_text_feed sample_soup start =
     (Raise ParserRejectedMarkup, st')).
Proof.
  apply (parser_rejection_ends_run unit timeout_net rejected_text_feed sample_soup
           1 0 [2; 3; 4; 5]%Z start tt (mkText 200 (lit "<![x]>")) ParserRejectedMarkup).
  - reflexivity.
  - simpl. lia.
  - reflexivity.
Defined.

Example text_run_counts_other_pages :
  last (trace (snd (main_text timeout_net timeout_text_feed sample_soup start)))
       (ESleep 0) = EPrint (MsgDone 4).
Proof. vm_compute. reflexivity. Qed.

(** ** The run on text and the run on anchors *)

Section Views.

Variable W : Type.
Variable net : Network W.
Variable requests_get_text : W -> Z -> W * Outcome TextResponse.
Variable BeautifulSoup_a_href : str -> Outcome Html.

Local Open Scope prog_scope.

Local Notation "'anchors_net'" :=
  (parsed_net net requests_get_text BeautifulSoup_a_href).
Local Notation "'view'" := (view_state BeautifulSoup_a_href).

Lemma view_fixed (evs : list event) :
  (forall ev, In ev evs -> anchors_view BeautifulSoup_a_href ev = ev) ->
  map (anchors_view BeautifulSoup_a_href) evs = evs.
Proof.
  intros H. rewrite <- (map_id evs) at 2. apply map_ext_in. exact H.
Qed.

Lemma view_state_snoc (w : W) (st : State W) (evs : list event) :
  (forall ev, In ev evs -> anchors_view BeautifulSoup_a_href ev = ev) ->
  mkState w (trace (view st) ++ evs) = view (mkState w (trace st ++ evs)).
Proof.
  intros H. unfold view_state. cbn [world trace].
  now rewrite map_app, (view_fixed evs H).
Qed.

Lemma bind_run (A B : Type) (m : Prog W A) (k : A -> Prog W B) (st : State W) :
  bind m k st =
  match m st with
  | (Ok a, st') => k a st'
  | (Raise e, st') => (Raise e, st')
  end.
Proof. reflexivity. Qed.

Lemma for_posts_view (posts : list Post) (n : Z) (st : State W) :
  for_posts anchors_net posts n (view st) =
  view_run BeautifulSoup_a_href (for_posts net posts n st).
Proof.
  revert n st; induction posts as [|p posts IH]; intros n st.
  - reflexivity.
  - assert (Hnext : forall k w evs,
              (forall ev, In ev evs -> anchors_view BeautifulSoup_a_href ev = ev) ->
              for_posts anchors_net posts k (mkState w (trace (view st) ++ evs)) =
              view_run BeautifulSoup_a_href
                (for_posts net posts k (mkState w (trace st ++ evs)))).
    { intros k w evs Hevs. rewrite (view_state_snoc w st evs Hevs). apply IH. }
    assert (Hnew : forall w1 q,
      (forall ev, In ev q -> anchors_view BeautifulSoup_a_href ev = ev) ->
      (create_notion_page anchors_net (title p) (blogger p) (url p) ;;;
       sleep 300 ;;; for_posts anchors_net posts (n + 1))
        (mkState w1 (trace (view st) ++ q)) =
      view_run BeautifulSoup_a_href
        ((create_notion_page net (title p) (blogger p) (url p) ;;;
          sleep 300 ;;; for_posts net posts (n + 1))
           (mkState w1 (trace st ++ q)))).
    { intros w1 q Hq. rewrite !bind_run, !create_notion_page_run.
      cbn [parsed_net utcnow_isoformat requests_post_pages world trace].
      destruct (utcnow_isoformat net w1) as [w2 now].
      destruct (requests_post_pages net w2 (payload_of p now)) as [w3 [res'|e]].
      - rewrite !bind_run. unfold sleep, emit. cbn [world trace].
        rewrite <- !app_assoc. apply Hnext.
        intros ev Hev. apply in_app_or in Hev as [Hev|Hev]; [now apply Hq|].
        destruct Hev as [<-|[<-|[<-|[]]]]; reflexivity.
      - unfold view_run, view_state. cbn [fst snd world trace].
        now rewrite !map_app, (view_fixed q Hq). }
    cbn [for_posts]. rewrite !bind_run, !notion_page_exists_run.
    cbn [parsed_net requests_post_query world view_state].
    change (map (anchors_view BeautifulSoup_a_href) (trace st)) with (trace (view st)).
    destruct (requests_post_query net (world st) (url p)) as [w1 [res|e]].
    + destruct (status_code res =? 200)%Z.
      * destruct (results_len res) as [k|e].
        -- destruct (0 <? k)%nat.
           ++ apply Hnext. intros ev [<-|[]]. reflexivity.
           ++ apply Hnew. intros ev [<-|[]]. reflexivity.
        -- unfold view_run, view_state. cbn [fst snd world trace].
           now rewrite map_app.
      * apply Hnew. intros ev [<-|[<-|[]]]; reflexivity.
    + unfold view_run, view_state. cbn [fst snd world trace]. now rewrite map_app.
Qed.

Lemma for_page_view (page n : Z) (st : State W) :
  (forall w' resp,
      requests_get_text (world st) page = (w', Ok resp) ->
      ~ (400 <= text_status resp < 600)%Z ->
      exists soup, BeautifulSoup_a_href (text_body resp) = Ok soup) ->
  for_page anchors_net page n (view st) =
  view_run BeautifulSoup_a_href
    (for_page_text net requests_get_text BeautifulSoup_a_href page n st).
Proof.
  intros Hparser.
  destruct (requests_get_text (world st) page) as [w' r] eqn:Hget.
  assert (Hget' : requests_get anchors_net (world (view st)) page =
                  (w', parsed_response BeautifulSoup_a_href r)).
  { cbn [parsed_net requests_get view_state world]. now rewrite Hget. }
  assert (Hfail : match r with
                  | Raise _ => True
                  | Ok resp => (400 <= text_status resp < 600)%Z
                  end ->
                  for_page anchors_net page n (view st) =
                  view_run BeautifulSoup_a_href
                    (for_page_text net requests_get_text BeautifulSoup_a_href page n st)).
  { intros Hf.
    rewrite (for_page_text_fetch_failure W net requests_get_text BeautifulSoup_a_href
               page n st w' r Hget Hf).
    rewrite (for_page_fetch_failure W anchors_net page n (view st) w' _ Hget').
    - unfold view_run, view_state. cbn [fst snd world trace]. rewrite map_app.
      destruct r; reflexivity.
    - destruct r; exact Hf. }
  destruct r as [resp|e]; [|now apply Hfail].
  destruct (Z_le_dec 400 (text_status resp)) as [Hlo|Hlo];
    [destruct (Z_lt_dec (text_status resp) 600) as [Hhi|Hhi]|];
    [apply Hfail; lia | |].
  all: destruct (Hparser w' resp eq_refl ltac:(lia)) as (soup & Hsoup).
  all: rewrite (for_page_text_fetched W net requests_get_text BeautifulSoup_a_href
                  page n st w' resp Hget) by lia.
  all: cbn [parsed_response] in Hget'; rewrite Hsoup in Hget'.
  all: rewrite (for_page_fetched W anchors_net page n (view st) w'
                  (mkFeed (text_status resp) soup) Hget')
    by (simpl; lia).
  all: unfold bind at 1 3, lift, parse_posts_text; rewrite Hsoup;
    cbn [obind feed_text]; rewrite parse_posts_candidates.
  all: destruct (values (dedup (candidates soup))) as [|p posts];
    [ unfold bind, print, emit, ret, view_run, view_state;
      cbn [fst snd world trace]; rewrite !map_app;
      cbn [map anchors_view parsed_response]; now rewrite Hsoup |].
  all: rewrite !bind_run.
  all: replace (mkState w' (trace (view st) ++
                  [EPrint (MsgFetchPage page);
                   EGet page (Ok (mkFeed (text_status resp) soup))]))
    with (view (mkState w' (trace st ++
                  [EPrint (MsgFetchPage page); EGetText page (Ok resp)])))
    by (unfold view_state; cbn [world trace]; rewrite map_app;
        cbn [map anchors_view parsed_response]; now rewrite Hsoup).
  all: rewrite for_posts_view.
  all: destruct (for_posts net (p :: posts) n _) as [[m|e] st1];
    unfold view_run; cbn [fst snd]; [|reflexivity].
  all: unfold bind, sleep, emit, ret, view_state; cbn [fst snd world trace];
    now rewrite map_app.
Qed.

Lemma for_pages_view (pages : list Z) (n : Z) (st : State W) :
  (forall w page w' resp,
      requests_get_text w page = (w', Ok resp) ->
      ~ (400 <= text_status resp < 600)%Z ->
      exists soup, BeautifulSoup_a_href (text_body resp) = Ok soup) ->
  for_pages anchors_net pages n (view st) =
  view_run BeautifulSoup_a_href
    (for_pages_text net requests_get_text BeautifulSoup_a_href pages n st).
Proof.
  intros Hparser. revert n st; induction pages as [|page pages IH]; intros n st.
  - reflexivity.
  - cbn [for_pages for_pages_text]. unfold bind.
    rewrite (for_page_view page n st (Hparser (world st) page)).
    destruct (for_page_text net requests_get_text BeautifulSoup_a_href page n st)
      as [[m|e] st1]; unfold view_run; cbn [fst snd]; [apply IH | reflexivity].
Qed.

(** X18. When the parser accepts the body of every page that is fetched,
    the script on the text of the pages does what the script on their
    anchors does: started in the same world, the two runs end with the same
    outcome in the same world, and their traces are the same once each GET
    is shown with the anchors of its body. *)
Theorem text_run_is_anchor_run (st : State W) :
  (forall w page w' resp,
      requests_get_text w page = (w', Ok resp) ->
      ~ (400 <= text_status resp < 600)%Z ->
      exists soup, BeautifulSoup_a_href (text_body resp) = Ok soup) ->
  main anchors_net (view st) =
  view_run BeautifulSoup_a_href
    (main_text net requests_get_text BeautifulSoup_a_href st).
Proof.
  intros Hparser. unfold main, main_text, bind.
  rewrite (for_pages_view (range 1 (max_page + 1)) 0 st Hparser).
  destruct (for_pages_text net requests_get_text BeautifulSoup_a_href
              (range 1 (max_page + 1)) 0 st) as [[m|e] st1];
    unfold view_run; cbn [fst snd]; [|reflexivity].
  unfold print, emit, view_state. cbn [fst snd world trace]. now rewrite map_app.
Qed.

End Views.

Lemma text_run_is_anchor_run_witness :
  main (parsed_net timeout_net timeout_text_feed sample_soup)
       (view_state sample_soup start) =
  view_run sample_soup (main_text timeout_net timeout_text_feed sample_soup start).
Proof.
  apply (text_run_is_anchor_run unit timeout_net timeout_text_feed sample_soup start).
  intros w page w' resp H _. unfold timeout_text_feed in H.
  destruct (page =? 3)%Z; [discriminate H|].
  injection H as _ <-. now exists alice_links.
Defined.
